(** * estrangement/utils.py: distances, estrangement and label matching

    A shallow embedding of [estrangement/utils.py] and of the parts of
    Python, networkx 1.x and numpy that the five functions of the module
    call, followed by the properties of these functions.

    Conventions of the embedding.
    - A Python [dict] is an association list in insertion order, the order
      in which CPython 3.7 and later iterate; a Python [set] is a
      duplicate-free list.  Keys are compared with a decidable equality
      (class [Hashable]).
    - An exception is a value of [exn]; code that can raise lives in the
      error monad [result].
    - The numbers of the graph functions (counts, edge weights, Jaccard
      overlaps, quotients) are exact rationals kept in lowest terms, so
      that [=] on results is numeric equality.  The code computes its
      counts and its sums of int weights exactly as well, and then divides
      and subtracts in binary64, rounding each of these two operations.
      With float weights the code also rounds every product and
      every partial sum, and [float()] and [**] raise [OverflowError] out
      of range; nothing below is stated about these roundings, and the
      values given for the weighted functions are at inputs where every
      number is a small integer, which binary64 holds exactly.
    - [confidence_interval] is modelled on binary64 floats, the arithmetic
      numpy and [math.sqrt] compute with, the sums in numpy's order.
    - A [networkx.Graph] is its adjacency structure [adj], a dict of dicts;
      the attribute dict of an edge is reduced to its ['weight'] entry.
      [edges_iter], [add_edge], [degree] and [size] follow the methods of
      networkx 1.x, the version that has [edges_iter] and list-valued
      [successors]. *)

From Stdlib Require Import List Bool ZArith QArith Qreduction String Lia.
From Stdlib Require Import Permutation Uint63 Floats.
Import ListNotations.

Set Implicit Arguments.
Set Warnings "-inexact-float".

(** ** Python values, exceptions and containers *)

Module Py.

Inductive exn : Set :=
| ZeroDivisionError
| KeyError
| ValueError
| IndexError
| NetworkXError.

Inductive result (A : Type) : Type :=
| Ok (a : A)
| Raise (e : exn).

Arguments Ok {A} a.
Arguments Raise {A} e.

Definition bind {A B : Type} (c : result A) (k : A -> result B) : result B :=
  match c with
  | Ok a => k a
  | Raise e => Raise e
  end.

(** A computation that returns, or raises [e] and nothing else. *)
Definition raises_only {A : Type} (e : exn) (c : result A) : Prop :=
  match c with
  | Ok _ => True
  | Raise e' => e' = e
  end.

(** [for x in xs: acc = body(acc, x)], stopping at the first exception. *)
Fixpoint for_each {A S : Type} (xs : list A) (body : S -> A -> result S) (acc : S)
  : result S :=
  match xs with
  | [] => Ok acc
  | x :: rest => bind (body acc x) (for_each rest body)
  end.

(** [[f(x) for x in xs if keep(x)]], the elements evaluated left to right. *)
Fixpoint comprehension {A B : Type} (xs : list A)
    (keep : A -> result bool) (f : A -> result B) : result (list B) :=
  match xs with
  | [] => Ok []
  | x :: rest =>
      bind (keep x) (fun b =>
      if b
      then bind (f x) (fun y =>
           bind (comprehension rest keep f) (fun ys => Ok (y :: ys)))
      else comprehension rest keep f)
  end.

(** Keys of dicts and members of sets: values with a decidable equality. *)
Class Hashable (A : Type) : Type :=
  hash_eq_dec : forall x y : A, {x = y} + {x <> y}.

Definition py_eqb {A : Type} `{Hashable A} (x y : A) : bool :=
  if hash_eq_dec x y then true else false.

#[export] Instance Z_Hashable : Hashable Z := Z.eq_dec.
#[export] Instance string_Hashable : Hashable string := string_dec.

#[export] Instance pair_Hashable {A B : Type} `{Hashable A} `{Hashable B}
  : Hashable (A * B).
Proof.
  intros [a b] [c d].
  destruct (hash_eq_dec a c) as [Hac | Hac].
  - destruct (hash_eq_dec b d) as [Hbd | Hbd].
    + left. rewrite Hac, Hbd. reflexivity.
    + right. intro E. apply Hbd. exact (f_equal snd E).
  - right. intro E. apply Hac. exact (f_equal fst E).
Defined.

#[export] Instance Q_Hashable : Hashable Q.
Proof.
  intros [a b] [c d].
  destruct (Z.eq_dec a c) as [Hac | Hac].
  - destruct (Pos.eq_dec b d) as [Hbd | Hbd].
    + left. rewrite Hac, Hbd. reflexivity.
    + right. intro E. apply Hbd. exact (f_equal Qden E).
  - right. intro E. apply Hac. exact (f_equal Qnum E).
Defined.

#[export] Instance option_Hashable {A : Type} `{Hashable A} : Hashable (option A).
Proof.
  intros [a |] [b |].
  - destruct (hash_eq_dec a b) as [Hab | Hab].
    + left. rewrite Hab. reflexivity.
    + right. intro E. apply Hab. injection E. trivial.
  - right. discriminate.
  - right. discriminate.
  - left. reflexivity.
Defined.

Definition dict (K V : Type) : Type := list (K * V).

Section Containers.
Context {K : Type} `{Hashable K}.

(** *** set *)

Fixpoint mem (x : K) (s : list K) : bool :=
  match s with
  | [] => false
  | y :: rest => if py_eqb x y then true else mem x rest
  end.

(** [s.add(x)] *)
Definition set_add (x : K) (s : list K) : list K :=
  if mem x s then s else s ++ [x].

(** [set(xs)] *)
Definition set_of (xs : list K) : list K :=
  fold_left (fun s x => set_add x s) xs [].

(** [a & b] *)
Definition set_and (a b : list K) : list K :=
  filter (fun x => mem x b) a.

(** [a | b] *)
Definition set_or (a b : list K) : list K :=
  a ++ filter (fun x => negb (mem x a)) b.

Fixpoint nodupb (s : list K) : bool :=
  match s with
  | [] => true
  | x :: rest => negb (mem x rest) && nodupb rest
  end.

(** *** dict *)

Definition keys {V : Type} (d : dict K V) : list K := map fst d.

Fixpoint get {V : Type} (k : K) (d : dict K V) : option V :=
  match d with
  | [] => None
  | (k', v) :: rest => if py_eqb k k' then Some v else get k rest
  end.

(** [d[k]] *)
Definition getitem {V : Type} (k : K) (d : dict K V) : result V :=
  match get k d with
  | Some v => Ok v
  | None => Raise KeyError
  end.

(** [d.get(k, default)] *)
Definition get_default {V : Type} (k : K) (d : dict K V) (default : V) : V :=
  match get k d with
  | Some v => v
  | None => default
  end.

(** [d[k] = v]: an existing key keeps its place, a new one goes last. *)
Fixpoint setitem {V : Type} (k : K) (v : V) (d : dict K V) : dict K V :=
  match d with
  | [] => [(k, v)]
  | (k', v') :: rest =>
      if py_eqb k k' then (k, v) :: rest else (k', v') :: setitem k v rest
  end.

(** [k in d] *)
Definition contains {V : Type} (k : K) (d : dict K V) : bool :=
  match get k d with
  | Some _ => true
  | None => false
  end.

End Containers.

(** *** numbers *)

Definition len {A : Type} (xs : list A) : Q := inject_Z (Z.of_nat (List.length xs)).

(** [sum(xs)], exact: the sum that Python computes on ints; on floats
    Python rounds after every addition. *)
Definition sum (xs : list Q) : Q := fold_left Qplus xs 0.

(** [a / float(b)], exact: Python raises [ZeroDivisionError] when [float(b)]
    is 0.0 and otherwise returns the double nearest to the quotient of the
    doubles [a] and [float(b)]. *)
Definition truediv (a b : Q) : result Q :=
  if Qeq_bool b 0 then Raise ZeroDivisionError else Ok (Qred (a / b)).

(** [max(xs, key=key)]: the first element whose key no other exceeds. *)
Definition max_by {A : Type} (key : A -> Q) (xs : list A) : result A :=
  match xs with
  | [] => Raise ValueError
  | x :: rest =>
      Ok (fold_left
            (fun best y => if Qlt_le_dec (key best) (key y) then y else best)
            rest x)
  end.

(** [xs[0]] *)
Definition first {A : Type} (xs : list A) : result A :=
  match xs with
  | [] => Raise IndexError
  | x :: _ => Ok x
  end.

End Py.

Import Py.

Declare Scope py_scope.
Delimit Scope py_scope with py.
Notation "x <- c ;; k" := (bind c (fun x => k))
  (at level 61, c at next level, right associativity) : py_scope.
Open Scope py_scope.
Open Scope Q_scope.

(** ** networkx 1.x *)

Module Nx.

(** The attribute dict of an edge, reduced to its ['weight'] entry. *)
Definition edge_data : Type := option Q.

Section Graphs.
Context {V : Type} `{Hashable V}.

(** *** Graph *)

Record Graph : Type := mkGraph { adj : dict V (dict V edge_data) }.

Definition empty_graph : Graph := mkGraph [].

(** [G.add_node(n)] *)
Definition add_node (n : V) (G : Graph) : Graph :=
  if contains n (adj G) then G else mkGraph (adj G ++ [(n, [])]).

(** [datadict.update(attr)] *)
Definition update (old attr : edge_data) : edge_data :=
  match attr with
  | Some w => Some w
  | None => old
  end.

(** [G.add_edge(u, v, **attr)] *)
Definition add_edge (u v : V) (attr : edge_data) (G : Graph) : Graph :=
  let a := adj (add_node v (add_node u G)) in
  let datadict := update (get_default v (get_default u a []) None) attr in
  let a := setitem u (setitem v datadict (get_default u a [])) a in
  let a := setitem v (setitem u datadict (get_default v a [])) a in
  mkGraph a.

(** [G.nodes()] *)
Definition nodes (G : Graph) : list V := keys (adj G).

(** [G[v]] *)
Definition neighbors (v : V) (G : Graph) : result (dict V edge_data) :=
  getitem v (adj G).

(** The loop of [edges_iter]: each edge is reported once, from the
    endpoint that comes first in the iteration over [adj]. *)
Fixpoint edges_from (seen : list V) (a : dict V (dict V edge_data))
  : list (V * V * edge_data) :=
  match a with
  | [] => []
  | (n, nbrs) :: rest =>
      map (fun e => (n, fst e, snd e))
          (filter (fun e => negb (mem (fst e) seen)) nbrs)
      ++ edges_from (n :: seen) rest
  end.

(** [G.edges(data=True)] *)
Definition edges_data (G : Graph) : list (V * V * edge_data) :=
  edges_from [] (adj G).

(** [G.edges()], [G.edges_iter()] *)
Definition edges (G : Graph) : list (V * V) := map fst (edges_data G).

(** [nx.get_edge_attributes(G, 'weight')]:
    [dict(((u, v), d['weight']) for u, v, d in G.edges(data=True)
          if 'weight' in d)] *)
Definition get_edge_attributes (G : Graph) : dict (V * V) Q :=
  fold_left
    (fun acc e =>
       match snd e with
       | Some w => setitem (fst e) w acc
       | None => acc
       end)
    (edges_data G) [].

(** [d.get('weight', 1)] *)
Definition weight_or_1 (d : edge_data) : Q :=
  match d with
  | Some w => w
  | None => 1
  end.

(** One item of [G.degree(weight='weight')]: the weights of the
    incident edges, a self-loop counted twice. *)
Definition degree (n : V) (nbrs : dict V edge_data) : Q :=
  sum (map (fun e => weight_or_1 (snd e)) nbrs)
  + match get n nbrs with
    | Some d => weight_or_1 d
    | None => 0
    end.

(** [G.size(weight='weight')] *)
Definition size (G : Graph) : Q :=
  Qred (sum (map (fun r => degree (fst r) (snd r)) (adj G)) / 2).

(** [d.get('weight', 1)] for an item of a row of [adj] *)
Definition entry_weight (e : V * edge_data) : Q := weight_or_1 (snd e).

(** [row[s].get('weight', 1)], 0 when [s] is not in the row *)
Definition row_weight (row : dict V edge_data) (s : V) : Q :=
  match get s row with
  | Some d => weight_or_1 d
  | None => 0
  end.

(** [G[n][m].get('weight', 1)], 0 when [n] and [m] are not adjacent *)
Definition weight_between (G : Graph) (n m : V) : Q :=
  match get n (adj G) with
  | Some row =>
      match get m row with
      | Some d => weight_or_1 d
      | None => 0
      end
  | None => 0
  end.

(** What the class maintains: no node and no neighbour is listed twice,
    and [adj[u][v]] and [adj[v][u]] hold the same attribute dict. *)
Definition wf_graph (G : Graph) : bool :=
  nodupb (keys (adj G))
  && forallb
       (fun r =>
          nodupb (keys (snd r))
          && forallb
               (fun e =>
                  match get (fst e) (adj G) with
                  | Some back =>
                      match get (fst r) back with
                      | Some d => py_eqb d (snd e)
                      | None => false
                      end
                  | None => false
                  end)
               (snd r))
       (adj G).

(** No vertex is isolated, every edge carries a weight, and every
    neighbour is a vertex. *)
Definition dense (G : Graph) : Prop :=
  forall n row, get n (adj G) = Some row ->
    row <> []
    /\ forall m d, In (m, d) row -> d <> None /\ get m (adj G) <> None.

(** The neighbours of a row with their weights, and the neighbour that
    [max(..., key=operator.itemgetter(1))[0]] selects for a vertex. *)
Definition weighted_neighbours (row : dict V edge_data) : list (V * Q) :=
  map (fun nbr => (fst nbr, match snd nbr with Some w => w | None => 0 end)) row.

Definition maxwt_nbr (G : Graph) (v : V) : option V :=
  match get v (adj G) with
  | Some row =>
      match max_by snd (weighted_neighbours row) with
      | Ok best => Some (fst best)
      | Raise _ => None
      end
  | None => None
  end.

(** *** DiGraph, reduced to its successor lists *)

Record DiGraph : Type := mkDiGraph { succ : dict V (list V) }.

Definition empty_digraph : DiGraph := mkDiGraph [].

Definition di_add_node (n : V) (D : DiGraph) : DiGraph :=
  if contains n (succ D) then D else mkDiGraph (succ D ++ [(n, [])]).

(** [D.add_edge(u, v)] *)
Definition di_add_edge (u v : V) (D : DiGraph) : DiGraph :=
  let s := succ (di_add_node v (di_add_node u D)) in
  mkDiGraph (setitem u (set_add v (get_default u s [])) s).

(** [D.successors(n)] *)
Definition successors (n : V) (D : DiGraph) : result (list V) :=
  match get n (succ D) with
  | Some vs => Ok vs
  | None => Raise NetworkXError
  end.

(** [D.successors(l)[0]] when it exists *)
Definition first_successor (D : DiGraph) (l : V) : option V :=
  match get l (succ D) with
  | Some (m :: _) => Some m
  | _ => None
  end.

End Graphs.

Arguments Graph V : clear implicits.
Arguments DiGraph V : clear implicits.

End Nx.

Import Nx.

(** ** numpy and math on binary64 floats *)

Module Np.

Open Scope float_scope.

(** [float(n)] for a length [n] *)
Definition float_of_nat (n : nat) : float :=
  PrimFloat.of_uint63 (Uint63.of_Z (Z.of_nat n)).

(** [numpy.add.reduce] on an array of doubles (numpy 1.9 and later): the
    reduction starts from the identity 0 and adds to it the pairwise sum
    of the whole array ([pairwise_sum] of umath's loops).  Fewer than 8
    elements are added one after the other to 0; up to 128 elements are
    accumulated in eight running sums, which are then added in pairs, the
    elements that are left over added at the end; a longer array is split
    in two parts, the first a multiple of 8 long.  (Recent versions start
    the loop of the short arrays from -0.0; the sum is then another one
    only for an array of negative zeros.) *)
Definition sum_from (res : float) (xs : list float) : float :=
  fold_left PrimFloat.add xs res.

(** [r[k] += a[i + k]] for the eight running sums *)
Fixpoint add_lanes (r xs : list float) : list float :=
  match r, xs with
  | rk :: r', x :: xs' => (rk + x) :: add_lanes r' xs'
  | _, _ => r
  end.

(** [for (i = 8; i < n - (n % 8); i += 8)]: the running sums after the
    given number of blocks, and the elements not yet read. *)
Fixpoint unrolled (blocks : nat) (r xs : list float) : list float * list float :=
  match blocks with
  | O => (r, xs)
  | S blocks' => unrolled blocks' (add_lanes r (firstn 8 xs)) (skipn 8 xs)
  end.

Definition lanes_sum (r : list float) : float :=
  match r with
  | [r0; r1; r2; r3; r4; r5; r6; r7] =>
      ((r0 + r1) + (r2 + r3)) + ((r4 + r5) + (r6 + r7))
  | _ => 0
  end.

Definition block_sum (xs : list float) : float :=
  let (r, rest) :=
    unrolled (List.length xs / 8 - 1) (firstn 8 xs) (skipn 8 xs) in
  sum_from (lanes_sum r) rest.

(** The recursion on halves, on [fuel]; the length of the array is fuel
    enough ([pairwise_sum_fuel]). *)
Fixpoint pairwise_sum (fuel : nat) (xs : list float) : float :=
  let n := List.length xs in
  if (n <? 8)%nat then sum_from 0 xs
  else if (n <=? 128)%nat then block_sum xs
  else match fuel with
       | O => block_sum xs
       | S fuel' =>
           let n2 := (n / 2 - (n / 2) mod 8)%nat in
           pairwise_sum fuel' (firstn n2 xs) + pairwise_sum fuel' (skipn n2 xs)
       end.

Definition add_reduce (xs : list float) : float :=
  0 + pairwise_sum (List.length xs) xs.

(** [numpy.var(xs, ddof=ddof)]: the mean of the squared deviations from
    the mean, the second mean taken over [max(n - ddof, 0)] elements. *)
Definition var (ddof : nat) (xs : list float) : float :=
  let rcount := List.length xs in
  let arrmean := add_reduce xs / float_of_nat rcount in
  let x := map (fun a => a - arrmean) xs in
  let x := map (fun a => a * a) x in
  add_reduce x / float_of_nat (Nat.max (rcount - ddof) 0).

(** [numpy.std(xs)], whose [ddof] defaults to 0 *)
Definition std (xs : list float) : float := PrimFloat.sqrt (var 0 xs).

(** [math.sqrt(n)] for a length [n] *)
Definition math_sqrt (n : nat) : float := PrimFloat.sqrt (float_of_nat n).

Close Scope float_scope.

End Np.

(** ** estrangement/utils.py *)

Module Utils.

Section Distances.
Context {V : Type} `{Hashable V}.

(** [w**2], exact as on a Python int *)
Definition square (w : Q) : Q := w * w.

(** [sum(f(i) for i in xs)] where [f] can raise *)
Definition sum_of {A : Type} (xs : list A) (f : A -> result Q) : result Q :=
  ws <- comprehension xs (fun _ => Ok true) f ;; Ok (sum ws).

Definition graph_distance (g0 g1 : Graph V) (weighted : bool) : result Q :=
  let intersection := set_and (set_of (edges g1)) (set_of (edges g0)) in
  if negb weighted then
    let union := set_or (set_of (edges g1)) (set_of (edges g0)) in
    truediv (len union - len intersection) (len union)
  else
    let g0weights := get_edge_attributes g0 in
    let g1weights := get_edge_attributes g1 in
    dot_product <- sum_of intersection
                     (fun i => w0 <- getitem i g0weights ;;
                               w1 <- getitem i g1weights ;;
                               Ok (w0 * w1)) ;;
    e1_norm <- sum_of (edges g1)
                 (fun i => w <- getitem i g1weights ;; Ok (square w)) ;;
    e0_norm <- sum_of (edges g0)
                 (fun i => w <- getitem i g0weights ;; Ok (square w)) ;;
    q <- truediv dot_product (e0_norm + e1_norm - dot_product) ;;
    Ok (Qred (1 - q)).

Definition node_graph_distance (g0 g1 : Graph V) : result Q :=
  let g1_nodes := set_of (nodes g1) in
  let g0_nodes := set_of (nodes g0) in
  q <- truediv (len (set_and g0_nodes g1_nodes)) (len (set_or g0_nodes g1_nodes)) ;;
  Ok (Qred (1 - q)).

Context {L : Type} `{Hashable L}.

(** [e[2]['weight']] *)
Definition weight_of (d : edge_data) : result Q :=
  match d with
  | Some w => Ok w
  | None => Raise KeyError
  end.

Definition Estrangement (G : Graph V) (label_dict : dict V L)
    (Zgraph : Graph V) : result Q :=
  let consort_edge_set := set_and (set_of (edges Zgraph)) (set_of (edges G)) in
  if Nat.eqb (List.length consort_edge_set) 0 then
    Ok 0
  else
    ws <- comprehension (edges_data Zgraph)
            (fun e => l0 <- getitem (fst (fst e)) label_dict ;;
                      l1 <- getitem (snd (fst e)) label_dict ;;
                      Ok (negb (py_eqb l0 l1)))
            (fun e => weight_of (snd e)) ;;
    truediv (sum ws) (size G).

End Distances.

Section Matching.
Context {N : Type} `{Hashable N}.
Context {L : Type} `{Hashable L}.

(** [for n, l in d.items(): nodesets[l].add(n)] on a
    [collections.defaultdict(set)] *)
Definition nodesets_step (nodesets : dict L (list N)) (nl : N * L)
  : dict L (list N) :=
  setitem (snd nl) (set_add (fst nl) (get_default (snd nl) nodesets [])) nodesets.

Definition nodesets_per_label (d : dict N L) : dict L (list N) :=
  fold_left nodesets_step d [].

Definition jaccard_overlap (nodeset_t_minus_1 nodeset_t : list N) : result Q :=
  truediv (len (set_and nodeset_t_minus_1 nodeset_t))
          (len (set_or nodeset_t_minus_1 nodeset_t)).

(** Lines 212-215: one edge per pair of a label at t and a label at
    t-1, all in one graph whose vertices are the labels. *)
Definition build_overlap_graph
    (nodesets_per_label_t nodesets_per_label_t_minus_1 : dict L (list N))
  : result (Graph L) :=
  for_each nodesets_per_label_t
    (fun g t =>
       for_each nodesets_per_label_t_minus_1
         (fun g t1 =>
            jaccard <- jaccard_overlap (snd t1) (snd t) ;;
            Ok (add_edge (fst t1) (fst t) (Some jaccard) g))
         g)
    empty_graph.

(** Lines 221-224: from every vertex an arc to its neighbour of
    largest weight. *)
Definition build_max_overlap_digraph (overlap_graph : Graph L)
  : result (DiGraph L) :=
  for_each (nodes overlap_graph)
    (fun d v =>
       nbrs <- neighbors v overlap_graph ;;
       wts <- comprehension nbrs (fun _ => Ok true)
                (fun nbr => w <- weight_of (snd nbr) ;; Ok (fst nbr, w)) ;;
       best <- max_by snd wts ;;
       Ok (di_add_edge v (fst best) d))
    empty_digraph.

(** Lines 228-233 *)
Definition best_matched_label (max_overlap_digraph : DiGraph L) (l_t : L)
  : result L :=
  s <- successors l_t max_overlap_digraph ;;
  match_l_t_minus_1 <- first s ;;
  s' <- successors match_l_t_minus_1 max_overlap_digraph ;;
  back <- first s' ;;
  Ok (if py_eqb back l_t then match_l_t_minus_1 else l_t).

Definition match_labels (label_dict prev_label_dict : dict N L)
  : result (dict N L) :=
  match prev_label_dict with
  | [] => Ok label_dict
  | _ :: _ =>
      let nodesets_per_label_t := nodesets_per_label label_dict in
      let nodesets_per_label_t_minus_1 := nodesets_per_label prev_label_dict in
      overlap_graph <- build_overlap_graph nodesets_per_label_t
                         nodesets_per_label_t_minus_1 ;;
      max_overlap_digraph <- build_max_overlap_digraph overlap_graph ;;
      for_each (keys nodesets_per_label_t)
        (fun matched_label_dict l_t =>
           best <- best_matched_label max_overlap_digraph l_t ;;
           let nodeset := get_default l_t nodesets_per_label_t [] in
           Ok (fold_left (fun m n => setitem n best m) nodeset matched_label_dict))
        []
  end.

End Matching.

Definition confidence_interval (nums : list float) : float :=
  (1.96 * Np.std nums / Np.math_sqrt (List.length nums))%float.

End Utils.

Import Utils.


(** ** The claims of the specification, in its own words *)

Module Spec.

(** The sum of a sample in binary64, the terms added one after the other. *)
Definition total (xs : list float) : float := fold_left PrimFloat.add xs 0%float.

(** The population standard deviation: the square root of the mean, over
    all [n] samples, of the squared deviations from the sample mean; the
    sums taken by [total]. *)
Definition population_std_with (total : list float -> float) (xs : list float)
  : float :=
  let n := Np.float_of_nat (List.length xs) in
  let mean := (total xs / n)%float in
  PrimFloat.sqrt
    (total (map (fun x => ((x - mean) * (x - mean))%float) xs) / n)%float.

Definition population_std (xs : list float) : float :=
  population_std_with total xs.

(** The Bessel-corrected standard deviation, which divides by [n - 1]. *)
Definition sample_std (xs : list float) : float :=
  let n := Np.float_of_nat (List.length xs) in
  let mean := (total xs / n)%float in
  PrimFloat.sqrt
    (total (map (fun x => ((x - mean) * (x - mean))%float) xs)
     / Np.float_of_nat (List.length xs - 1))%float.

Section Edges.
Context {V : Type} `{Hashable V}.

(** Two reported edges name the same undirected edge. *)
Definition same_edge (e e' : V * V) : Prop :=
  e = e' \/ e = (snd e', fst e').

(** The sum of the edge weights of a graph. *)
Definition total_weight (G : Graph V) : Q :=
  sum (map (fun e => match snd e with Some w => w | None => 0 end)
           (edges_data G)).

(** The sum of a symmetric table over the pairs (i, j) with i <= j, the
    indices taken from a list. *)
Fixpoint upper_triangle (W : V -> V -> Q) (ns : list V) : Q :=
  match ns with
  | [] => 0
  | n :: rest => (W n n + sum (map (W n) rest)) + upper_triangle W rest
  end.

Context {L : Type} `{Hashable L}.

(** The endpoints of an edge receive different labels. *)
Definition estranged (label_dict : dict V L) (e : V * V * edge_data) : bool :=
  match get (fst (fst e)) label_dict, get (snd (fst e)) label_dict with
  | Some a, Some b => negb (py_eqb a b)
  | _, _ => false
  end.

(** The sum of the weights of the edges of [Zgraph] whose endpoints
    receive different labels. *)
Definition estranged_weight (label_dict : dict V L) (Zgraph : Graph V) : Q :=
  sum (map (fun e => match snd e with Some w => w | None => 0 end)
           (filter (estranged label_dict) (edges_data Zgraph))).

(** An edge is in a list of edges, (u, v) identified with (v, u). *)
Definition has_edge (es : list (V * V)) (e : V * V) : bool :=
  mem e es || mem (snd e, fst e) es.

(** The Jaccard distance (|union| - |intersection|) / |union| of two edge
    sets, each given as a list that names every undirected edge once. *)
Definition jaccard_distance (a b : list (V * V)) : Q :=
  let intersection := Z.of_nat (List.length (filter (has_edge b) a)) in
  let union :=
    (Z.of_nat (List.length a)
     + Z.of_nat (List.length (filter (fun e => negb (has_edge a e)) b)))%Z in
  Qred (inject_Z (union - intersection) / inject_Z union).

(** The weight of an undirected edge in a graph, whichever of its two
    endpoints the graph reports first; 0 when the edge is absent. *)
Definition weight_at (G : Graph V) (e : V * V) : Q :=
  match get e (edges_data G), get (snd e, fst e) (edges_data G) with
  | Some (Some w), _ => w
  | None, Some (Some w) => w
  | _, _ => 0
  end.

(** The weight assignments of two graphs as vectors indexed by edge
    identity.  The dot product: the sum, over the edges present in both
    graphs, of the product of the two weights. *)
Definition dot_product (g0 g1 : Graph V) : Q :=
  sum (map (fun e => weight_at g0 e * weight_at g1 e)
           (filter (has_edge (edges g1)) (edges g0))).

(** The sum of the squared weights over the edges of a graph. *)
Definition norm (g : Graph V) : Q :=
  sum (map (fun e => weight_at g e * weight_at g e) (edges g)).

(** The Tanimoto distance 1 - dot / (norm0 + norm1 - dot). *)
Definition tanimoto_distance (g0 g1 : Graph V) : Q :=
  Qred (1 - dot_product g0 g1 / (norm g0 + norm g1 - dot_product g0 g1)).

(** The estrangement: 0 when no edge of [Zgraph] is an edge of [G];
    otherwise the weight of all the edges of [Zgraph] whose endpoints
    receive different labels, over the sum of the edge weights of [G]. *)
Definition estrangement (G : Graph V) (label_dict : dict V L) (Zgraph : Graph V)
  : Q :=
  if existsb (has_edge (edges G)) (edges Zgraph)
  then Qred (estranged_weight label_dict Zgraph / total_weight G)
  else 0.

End Edges.

(** A label mapping with every label [l] replaced by [f l]. *)
Definition rename_labels {N L L' : Type} (f : L -> L') (label_dict : dict N L)
  : dict N L' :=
  map (fun nl => (fst nl, f (snd nl))) label_dict.

Section Matching.
Context {N : Type} `{Hashable N} {L : Type} `{Hashable L}.

(** The nodes of a label, and the labels of a mapping. *)
Definition nodes_of (d : dict N L) (l : L) : list N :=
  map fst (filter (fun nl => py_eqb (snd nl) l) d).

Definition labels_of (d : dict N L) : list L := set_of (map snd d).

(** The Jaccard similarity |a & b| / |a | b| of two node sets. *)
Definition jaccard (a b : list N) : Q :=
  Qred (len (set_and a b) / len (set_or a b)).

(** The candidate of largest score, the first one among equals. *)
Definition best_of (score : L -> Q) (candidates : list L) : option L :=
  match candidates with
  | [] => None
  | c :: rest =>
      Some (fold_left
              (fun best y => if Qlt_le_dec (score best) (score y) then y else best)
              rest c)
  end.

(** The label at t-1 of largest overlap with a label at t, and the label
    at t of largest overlap with a label at t-1, in the bipartite graph of
    the two sets of labels. *)
Definition ancestor (label_dict prev_label_dict : dict N L) (l_t : L) : option L :=
  best_of (fun m => jaccard (nodes_of prev_label_dict m) (nodes_of label_dict l_t))
          (labels_of prev_label_dict).

Definition descendant (label_dict prev_label_dict : dict N L) (m : L) : option L :=
  best_of (fun l => jaccard (nodes_of prev_label_dict m) (nodes_of label_dict l))
          (labels_of label_dict).

(** A group is renamed to its ancestor when the match is reciprocal, and
    keeps its label otherwise. *)
Definition matched_label (label_dict prev_label_dict : dict N L) (l_t : L) : L :=
  match ancestor label_dict prev_label_dict l_t with
  | Some m =>
      if py_eqb (descendant label_dict prev_label_dict m) (Some l_t)
      then m else l_t
  | None => l_t
  end.

Definition match_labels (label_dict prev_label_dict : dict N L) : dict N L :=
  map (fun nl => (fst nl, matched_label label_dict prev_label_dict (snd nl)))
      label_dict.

End Matching.

End Spec.

(** ** Sample inputs *)

Module Samples.

Open Scope string_scope.
Open Scope Z_scope.

(** [G.add_edge(1, 9)] and [G.add_edge(9, 1)] on empty graphs *)
Definition g_1_9 : Graph Z := add_edge 1 9 None empty_graph.
Definition g_9_1 : Graph Z := add_edge 9 1 None empty_graph.

(** The first of them with weight 1 on the edge *)
Definition w_1_9 : Graph Z := add_edge 1 9 (Some 1%Q) empty_graph.

(** The same edge of weight 1, entered from its other endpoint, and labels
    that separate the two endpoints *)
Definition w_9_1 : Graph Z := add_edge 9 1 (Some 1%Q) empty_graph.
Definition labels_1_9 : dict Z string := [(1, "a"); (9, "b")].

(** The graphs of the docstring of [Estrangement] *)
Definition g0 : Graph Z :=
  add_edge 2 3 (Some 1%Q)
    (add_edge 1 3 (Some 1%Q) (add_edge 1 2 (Some 2%Q) empty_graph)).
Definition g1 : Graph Z := add_edge 1 2 (Some 2%Q) empty_graph.
Definition communities : dict Z string := [(1, "a"); (2, "a"); (3, "b")].

(** A consort graph that shares no edge with [g0] *)
Definition z_4_5 : Graph Z := add_edge 4 5 (Some 2%Q) empty_graph.

(** Two labellings that share the label ["b"] *)
Definition labels_t : dict Z string := [(1, "a"); (2, "a"); (3, "b")].
Definition labels_t_minus_1 : dict Z string := [(1, "b"); (2, "b"); (3, "b")].

(** A labelling at t-1 that shares no label with [labels_t] *)
Definition labels_x_y : dict Z string := [(1, "x"); (2, "x"); (3, "y")].

(** [communities] without node 3 *)
Definition communities_1_2 : dict Z string := [(1, "a"); (2, "a")].

(** Two ways to name the labels at t-1: every label prefixed, and only
    ["b"] replaced. *)
Definition prefixed (l : string) : string := "x" ++ l.
Definition b_as_c (l : string) : string := if String.eqb l "b" then "c" else l.

Close Scope Z_scope.
Close Scope string_scope.

End Samples.

(** ** What the loops of [match_labels] maintain *)

Module Invariants.

Section Overlap.
Context {N : Type} `{Hashable N} {L : Type} `{Hashable L}.

(** An entry [(m, d)] of the row of [n] in the overlap graph was written
    by line 215 for a label [l1] of t-1 and a label [l] of t: one of [n],
    [m] is [l1], the other is [l], and [d] carries the overlap of their
    node sets. *)
Definition written_for (ts t1s : dict L (list N)) (n m : L) (d : edge_data) : Prop :=
  exists t1 t j,
    In t1 t1s /\ In t ts
    /\ jaccard_overlap (snd t1) (snd t) = Ok j
    /\ d = Some j
    /\ ((n = fst t1 /\ m = fst t) \/ (n = fst t /\ m = fst t1)).

(** [m in g[n]] *)
Definition listed (g : Graph L) (n m : L) : Prop :=
  exists row, get n (adj g) = Some row /\ In m (keys row).

End Overlap.

End Invariants.

Import Invariants.

(** * Properties *)

Unset Implicit Arguments.

(** ** Sets and dicts *)

Section ContainerFacts.
Context {K : Type} `{Hashable K}.

Lemma py_eqb_eq (x y : K) : py_eqb x y = true <-> x = y.
Proof.
  unfold py_eqb. destruct (hash_eq_dec x y); split; congruence.
Qed.

Lemma py_eqb_refl (x : K) : py_eqb x x = true.
Proof. apply py_eqb_eq. reflexivity. Qed.

Lemma py_eqb_neq (x y : K) : x <> y -> py_eqb x y = false.
Proof.
  intro Hn. unfold py_eqb. destruct (hash_eq_dec x y); congruence.
Qed.

Lemma py_eqb_false (x y : K) : py_eqb x y = false <-> x <> y.
Proof.
  unfold py_eqb. destruct (hash_eq_dec x y); split; congruence.
Qed.

Lemma mem_In (x : K) (s : list K) : mem x s = true <-> In x s.
Proof.
  induction s as [| y s IH]; simpl.
  - split; [discriminate | contradiction].
  - destruct (py_eqb x y) eqn:E.
    + apply py_eqb_eq in E. subst. tauto.
    + apply py_eqb_false in E. rewrite IH. split; [tauto |].
      intros [Hy | Hs]; [congruence | exact Hs].
Qed.

Lemma mem_not_In (x : K) (s : list K) : mem x s = false <-> ~ In x s.
Proof.
  rewrite <- mem_In. destruct (mem x s); split; congruence.
Qed.

Lemma In_set_add (x y : K) (s : list K) :
  In y (set_add x s) <-> y = x \/ In y s.
Proof.
  unfold set_add. destruct (mem x s) eqn:E.
  - apply mem_In in E. split; [tauto |]. intros [-> | Hs]; assumption.
  - rewrite in_app_iff. simpl. split.
    + intros [Hs | [-> | []]]; tauto.
    + intros [-> | Hs]; tauto.
Qed.

Lemma set_add_not_nil (x : K) (s : list K) : set_add x s <> [].
Proof.
  unfold set_add. destruct (mem x s) eqn:E.
  - intros ->. discriminate E.
  - destruct s; discriminate.
Qed.

Lemma In_fold_set_add (x : K) (xs acc : list K) :
  In x (fold_left (fun s y => set_add y s) xs acc) <-> In x acc \/ In x xs.
Proof.
  revert acc. induction xs as [| y xs IH]; intro acc; simpl.
  - tauto.
  - rewrite IH, In_set_add. split.
    + intros [[-> | Ha] | Hx]; auto.
    + intros [Ha | [-> | Hx]]; auto.
Qed.

Lemma In_set_of (x : K) (xs : list K) : In x (set_of xs) <-> In x xs.
Proof.
  unfold set_of. rewrite In_fold_set_add. simpl. tauto.
Qed.

Lemma In_set_and (x : K) (a b : list K) :
  In x (set_and a b) <-> In x a /\ In x b.
Proof.
  unfold set_and. rewrite filter_In, mem_In. reflexivity.
Qed.

Lemma In_set_or (x : K) (a b : list K) :
  In x (set_or a b) <-> In x a \/ In x b.
Proof.
  unfold set_or. rewrite in_app_iff, filter_In, negb_true_iff, mem_not_In.
  destruct (in_dec hash_eq_dec x a); tauto.
Qed.

Lemma nil_iff_no_element {A : Type} (l : list A) :
  l = [] <-> (forall x, ~ In x l).
Proof.
  split.
  - intros -> x [].
  - destruct l as [| a l]; [reflexivity |].
    intro Hno. exfalso. apply (Hno a). left. reflexivity.
Qed.

Lemma set_and_nil (a b : list K) :
  set_and a b = [] <-> (forall x, In x a -> ~ In x b).
Proof.
  rewrite nil_iff_no_element. split.
  - intros Hno x Ha Hb. apply (Hno x). apply In_set_and. tauto.
  - intros Hno x Hx. apply In_set_and in Hx. apply (Hno x); tauto.
Qed.

Lemma set_or_nil (a b : list K) : set_or a b = [] <-> a = [] /\ b = [].
Proof.
  split.
  - intro E. assert (Hno : forall x, ~ (In x a \/ In x b)).
    { intros x Hx. apply In_set_or in Hx. rewrite E in Hx. exact Hx. }
    split; apply nil_iff_no_element; intros x Hx; apply (Hno x); tauto.
  - intros [-> ->]. reflexivity.
Qed.

Lemma set_of_nil (xs : list K) : set_of xs = [] <-> xs = [].
Proof.
  split.
  - intro E. apply nil_iff_no_element. intros x Hx.
    apply In_set_of in Hx. rewrite E in Hx. exact Hx.
  - intros ->. reflexivity.
Qed.

Context {V : Type}.

Lemma get_setitem (k k' : K) (v : V) (d : dict K V) :
  get k' (setitem k v d) = if py_eqb k' k then Some v else get k' d.
Proof.
  induction d as [| [k0 v0] d IH]; simpl.
  - reflexivity.
  - destruct (py_eqb k k0) eqn:E; simpl.
    + apply py_eqb_eq in E. subst k0. destruct (py_eqb k' k); reflexivity.
    + rewrite IH. destruct (py_eqb k' k0) eqn:E0; [| reflexivity].
      apply py_eqb_eq in E0. subst k0.
      rewrite py_eqb_neq; [reflexivity |].
      intros ->. rewrite py_eqb_refl in E. discriminate E.
Qed.

Lemma get_app (k : K) (d d' : dict K V) :
  get k (d ++ d') = match get k d with Some v => Some v | None => get k d' end.
Proof.
  induction d as [| [k0 v0] d IH]; simpl; [reflexivity |].
  destruct (py_eqb k k0); [reflexivity | exact IH].
Qed.

Lemma get_In (k : K) (v : V) (d : dict K V) : get k d = Some v -> In (k, v) d.
Proof.
  induction d as [| [k0 v0] d IH]; simpl; [discriminate |].
  destruct (py_eqb k k0) eqn:E.
  - apply py_eqb_eq in E. intros [= ->]. left. congruence.
  - intro Hg. right. exact (IH Hg).
Qed.

Lemma get_keys (k : K) (d : dict K V) : get k d <> None <-> In k (keys d).
Proof.
  induction d as [| [k0 v0] d IH]; simpl.
  - tauto.
  - destruct (py_eqb k k0) eqn:E.
    + apply py_eqb_eq in E. split; [auto | discriminate].
    + apply py_eqb_false in E. rewrite IH. split; [tauto |].
      intros [E0 | Hk]; [congruence | exact Hk].
Qed.

Lemma keys_get (k : K) (d : dict K V) : In k (keys d) -> exists v, get k d = Some v.
Proof.
  intro Hk. apply get_keys in Hk. destruct (get k d) as [v |]; [| congruence].
  exists v. reflexivity.
Qed.

Lemma In_keys (k : K) (v : V) (d : dict K V) : In (k, v) d -> In k (keys d).
Proof. intro Hin. apply (in_map fst) in Hin. exact Hin. Qed.

Lemma In_get (k : K) (v : V) (d : dict K V) :
  NoDup (keys d) -> In (k, v) d -> get k d = Some v.
Proof.
  induction d as [| [k0 v0] d IH]; simpl; [intros _ [] |].
  intros Hnd [E | Hin].
  - injection E as -> ->. rewrite py_eqb_refl. reflexivity.
  - inversion Hnd as [| ? ? Hk0 Hnd']; subst.
    rewrite py_eqb_neq; [exact (IH Hnd' Hin) |].
    intros ->. apply Hk0. exact (In_keys _ _ _ Hin).
Qed.

Lemma In_setitem (k : K) (v : V) (d : dict K V) (e : K * V) :
  In e (setitem k v d) -> e = (k, v) \/ In e d.
Proof.
  induction d as [| [k0 v0] d IH]; simpl.
  - intros [<- | []]. left. reflexivity.
  - destruct (py_eqb k k0); simpl.
    + intros [<- | Hin]; auto.
    + intros [<- | Hin]; auto. destruct (IH Hin); auto.
Qed.

Lemma setitem_not_nil (k : K) (v : V) (d : dict K V) : setitem k v d <> [].
Proof.
  destruct d as [| [k0 v0] d]; simpl; [discriminate |].
  destruct (py_eqb k k0); discriminate.
Qed.

Lemma keys_setitem (k k' : K) (v : V) (d : dict K V) :
  In k' (keys (setitem k v d)) <-> k' = k \/ In k' (keys d).
Proof.
  rewrite <- !get_keys, get_setitem.
  destruct (py_eqb k' k) eqn:E.
  - apply py_eqb_eq in E. split; [auto | discriminate].
  - apply py_eqb_false in E. tauto.
Qed.

Lemma NoDup_keys_setitem (k : K) (v : V) (d : dict K V) :
  NoDup (keys d) -> NoDup (keys (setitem k v d)).
Proof.
  induction d as [| [k0 v0] d IH]; simpl; intro Hnd.
  - constructor; [intros [] | constructor].
  - inversion Hnd as [| ? ? Hk0 Hnd']; subst.
    destruct (py_eqb k k0) eqn:E; simpl.
    + apply py_eqb_eq in E. subst k0. constructor; assumption.
    + constructor; [| exact (IH Hnd')].
      intro Hin. apply keys_setitem in Hin. destruct Hin as [-> | Hin].
      * rewrite py_eqb_refl in E. discriminate E.
      * exact (Hk0 Hin).
Qed.

End ContainerFacts.

(** ** Sums of rationals *)

Lemma fold_Qplus_acc (xs : list Q) (a : Q) :
  fold_left Qplus xs a == a + fold_left Qplus xs 0.
Proof.
  revert a. induction xs as [| x xs IH]; intro a; simpl.
  - ring.
  - rewrite (IH (a + x)), (IH (0 + x)). ring.
Qed.

Lemma sum_nil : sum [] = 0.
Proof. reflexivity. Qed.

Lemma sum_cons (x : Q) (xs : list Q) : sum (x :: xs) == x + sum xs.
Proof.
  unfold sum. simpl. rewrite fold_Qplus_acc. ring.
Qed.

Lemma sum_app (xs ys : list Q) : sum (xs ++ ys) == sum xs + sum ys.
Proof.
  induction xs as [| x xs IH]; simpl.
  - rewrite sum_nil. ring.
  - rewrite !sum_cons, IH. ring.
Qed.

Lemma sum_map_ext {A : Type} (f g : A -> Q) (l : list A) :
  (forall x, In x l -> f x == g x) -> sum (map f l) == sum (map g l).
Proof.
  induction l as [| x l IH]; intro Hfg; simpl.
  - reflexivity.
  - rewrite !sum_cons, IH.
    + rewrite (Hfg x); [reflexivity | left; reflexivity].
    + intros y Hy. apply Hfg. right. exact Hy.
Qed.

Lemma sum_map_plus {A : Type} (f g : A -> Q) (l : list A) :
  sum (map (fun x => f x + g x) l) == sum (map f l) + sum (map g l).
Proof.
  induction l as [| x l IH]; simpl.
  - rewrite sum_nil. ring.
  - rewrite !sum_cons, IH. ring.
Qed.

Lemma sum_filter_split {A : Type} (w : A -> Q) (p q : A -> bool) (l : list A) :
  (forall x, In x l -> p x = true -> q x = true -> False) ->
  sum (map w (filter (fun x => p x || q x) l))
  == sum (map w (filter p l)) + sum (map w (filter q l)).
Proof.
  induction l as [| x l IH]; intro Hdisj; simpl.
  - rewrite sum_nil. ring.
  - assert (IH' := IH (fun y Hy => Hdisj y (or_intror Hy))).
    assert (Hx := Hdisj x (or_introl eq_refl)).
    destruct (p x) eqn:Ep; destruct (q x) eqn:Eq; simpl.
    + exfalso. apply Hx; reflexivity.
    + rewrite !sum_cons, IH'. ring.
    + rewrite !sum_cons, IH'. ring.
    + exact IH'.
Qed.

(** ** Well-formed graphs *)

Section WellFormed.
Context {V : Type} `{Hashable V}.

Lemma nodupb_NoDup (s : list V) : nodupb s = true -> NoDup s.
Proof.
  induction s as [| x s IH]; simpl; intro Hs.
  - constructor.
  - apply andb_true_iff in Hs. destruct Hs as [Hx Hs].
    apply negb_true_iff, mem_not_In in Hx.
    constructor; [exact Hx | exact (IH Hs)].
Qed.

Variable G : Graph V.
Hypothesis Hwf : wf_graph G = true.

Lemma wf_nodes : NoDup (keys (adj G)).
Proof.
  unfold wf_graph in Hwf. apply andb_true_iff in Hwf.
  apply nodupb_NoDup. exact (proj1 Hwf).
Qed.

Lemma wf_row (n : V) (row : dict V edge_data) :
  In (n, row) (adj G) -> NoDup (keys row).
Proof.
  intro Hin. unfold wf_graph in Hwf. apply andb_true_iff in Hwf.
  destruct Hwf as [_ Hall]. rewrite forallb_forall in Hall.
  specialize (Hall _ Hin). apply andb_true_iff in Hall.
  apply nodupb_NoDup. exact (proj1 Hall).
Qed.

Lemma wf_symmetric (n m : V) (row : dict V edge_data) (d : edge_data) :
  In (n, row) (adj G) -> In (m, d) row ->
  exists back, get m (adj G) = Some back /\ get n back = Some d.
Proof.
  intros Hin Hm. unfold wf_graph in Hwf. apply andb_true_iff in Hwf.
  destruct Hwf as [_ Hall]. rewrite forallb_forall in Hall.
  specialize (Hall _ Hin). apply andb_true_iff in Hall.
  destruct Hall as [_ Hrow]. rewrite forallb_forall in Hrow.
  specialize (Hrow _ Hm). simpl in Hrow.
  destruct (get m (adj G)) as [back |]; [| discriminate Hrow].
  destruct (get n back) as [d' |] eqn:Ed; [| discriminate Hrow].
  apply py_eqb_eq in Hrow. subst d'. exists back. split; [reflexivity | exact Ed].
Qed.

Lemma wf_row_get (n : V) (row : dict V edge_data) :
  In (n, row) (adj G) -> get n (adj G) = Some row.
Proof. apply In_get. exact wf_nodes. Qed.

Lemma wf_neighbor_is_node (n m : V) (row : dict V edge_data) (d : edge_data) :
  In (n, row) (adj G) -> In (m, d) row -> In m (keys (adj G)).
Proof.
  intros Hin Hm. destruct (wf_symmetric n m row d Hin Hm) as [back [Hback _]].
  apply get_keys. rewrite Hback. discriminate.
Qed.

Lemma weight_between_sym (n m : V) :
  weight_between G n m = weight_between G m n.
Proof.
  assert (Hhalf : forall a b row d,
             get a (adj G) = Some row -> get b row = Some d ->
             weight_between G b a = weight_or_1 d).
  { intros a b row d Ha Hb. unfold weight_between.
    destruct (wf_symmetric a b row d (get_In _ _ _ Ha) (get_In _ _ _ Hb))
      as [back [Hback Hd]].
    rewrite Hback, Hd. reflexivity. }
  destruct (get n (adj G)) as [row |] eqn:En.
  - destruct (get m row) as [d |] eqn:Em.
    + rewrite (Hhalf n m row d En Em). unfold weight_between.
      rewrite En, Em. reflexivity.
    + destruct (get m (adj G)) as [back |] eqn:Eb.
      * destruct (get n back) as [d |] eqn:Ed.
        -- rewrite (Hhalf m n back d Eb Ed). unfold weight_between.
           rewrite Eb, Ed. reflexivity.
        -- unfold weight_between. rewrite En, Em, Eb, Ed. reflexivity.
      * unfold weight_between. rewrite En, Em, Eb. reflexivity.
  - destruct (get m (adj G)) as [back |] eqn:Eb.
    + destruct (get n back) as [d |] eqn:Ed.
      * destruct (wf_symmetric m n back d (get_In _ _ _ Eb) (get_In _ _ _ Ed))
          as [r [Hr _]].
        congruence.
      * unfold weight_between. rewrite En, Eb, Ed. reflexivity.
    + unfold weight_between. rewrite En, Eb. reflexivity.
Qed.

End WellFormed.

(** ** The size of a graph is the sum of its edge weights *)

Section Handshake.
Context {V : Type} `{Hashable V}.

Lemma NoDup_app_disjoint {A : Type} (l l' : list A) (x : A) :
  NoDup (l ++ l') -> In x l -> In x l' -> False.
Proof.
  induction l as [| a l IH]; simpl; intros Hnd Hl Hl'.
  - exact Hl.
  - inversion Hnd as [| ? ? Ha Hnd']; subst. destruct Hl as [-> | Hl].
    + apply Ha. apply in_or_app. right. exact Hl'.
    + exact (IH Hnd' Hl Hl').
Qed.

Lemma filter_all {A : Type} (p : A -> bool) (l : list A) :
  (forall x, In x l -> p x = true) -> filter p l = l.
Proof.
  induction l as [| x l IH]; intro Hp; simpl; [reflexivity |].
  rewrite (Hp x (or_introl eq_refl)), IH; [reflexivity |].
  intros y Hy. apply Hp. right. exact Hy.
Qed.

Lemma filter_none {A : Type} (p : A -> bool) (l : list A) :
  (forall x, In x l -> p x = false) -> filter p l = [].
Proof.
  induction l as [| x l IH]; intro Hp; simpl; [reflexivity |].
  rewrite (Hp x (or_introl eq_refl)). apply IH.
  intros y Hy. apply Hp. right. exact Hy.
Qed.

Lemma row_weight_single (row : dict V edge_data) (s : V) :
  NoDup (keys row) ->
  sum (map entry_weight (filter (fun e => py_eqb (fst e) s) row)) == row_weight row s.
Proof.
  unfold row_weight.
  induction row as [| [m d] row IH]; simpl; intro Hnd.
  - reflexivity.
  - inversion Hnd as [| ? ? Hm Hnd']; subst.
    destruct (py_eqb m s) eqn:E.
    + apply py_eqb_eq in E. subst m. rewrite py_eqb_refl. simpl.
      rewrite sum_cons, filter_none.
      * cbn [map]. rewrite sum_nil. unfold entry_weight. simpl. ring.
      * intros [k dk] Hk. simpl. apply py_eqb_neq. intros ->.
        apply Hm. exact (In_keys _ _ _ Hk).
    + rewrite py_eqb_neq.
      * exact (IH Hnd').
      * apply py_eqb_false in E. congruence.
Qed.

Lemma row_weight_sum (row : dict V edge_data) (S : list V) :
  NoDup (keys row) -> NoDup S ->
  sum (map entry_weight (filter (fun e => mem (fst e) S) row))
  == sum (map (row_weight row) S).
Proof.
  intros Hrow. induction S as [| s S IH]; intro HS.
  - rewrite filter_none; [reflexivity | intros; reflexivity].
  - inversion HS as [| ? ? Hs HS']; subst.
    rewrite (filter_ext (fun e => mem (fst e) (s :: S))
               (fun e => py_eqb (fst e) s || mem (fst e) S))
      by (intros [k dk]; simpl; destruct (py_eqb k s); reflexivity).
    cbn [map]. rewrite sum_cons, <- (IH HS'), <- (row_weight_single row s Hrow).
    apply sum_filter_split.
    intros [k dk] _ Hk HkS. simpl in Hk, HkS.
    apply py_eqb_eq in Hk. subst k. apply mem_In in HkS. exact (Hs HkS).
Qed.

Variable G : Graph V.
Hypothesis Hwf : wf_graph G = true.

Lemma row_weight_between (n : V) (row : dict V edge_data) (s : V) :
  In (n, row) (adj G) -> weight_between G n s = row_weight row s.
Proof.
  intro Hin. unfold weight_between, row_weight.
  rewrite (wf_row_get G Hwf n row Hin). reflexivity.
Qed.

Lemma degree_weight_between (n : V) (row : dict V edge_data) :
  In (n, row) (adj G) ->
  degree n row
  == sum (map (weight_between G n) (keys (adj G))) + weight_between G n n.
Proof.
  intro Hin. unfold degree.
  rewrite (row_weight_between n row n Hin). unfold row_weight.
  apply Qplus_comp; [| reflexivity].
  rewrite (sum_map_ext (weight_between G n) (row_weight row));
    [| intros s _; rewrite (row_weight_between n row s Hin); reflexivity].
  rewrite <- (row_weight_sum row (keys (adj G))
                (wf_row G Hwf n row Hin) (wf_nodes G Hwf)).
  rewrite filter_all; [reflexivity |].
  intros [m d] Hm. simpl. apply mem_In.
  exact (wf_neighbor_is_node G Hwf n m row d Hin Hm).
Qed.

Lemma edges_from_weight (rest pre : dict V (dict V edge_data)) (seen : list V) :
  adj G = pre ++ rest ->
  (forall x, In x seen <-> In x (keys pre)) ->
  sum (map (fun e => weight_or_1 (snd e)) (edges_from seen rest))
  == Spec.upper_triangle (weight_between G) (keys rest).
Proof.
  revert pre seen. induction rest as [| [n row] rest IH]; intros pre seen Hadj Hseen.
  - reflexivity.
  - simpl. rewrite map_app, sum_app, map_map. simpl.
    assert (Hin : In (n, row) (adj G)).
    { rewrite Hadj. apply in_or_app. right. left. reflexivity. }
    assert (Hnd : NoDup (keys pre ++ n :: keys rest)).
    { assert (Hk := wf_nodes G Hwf). rewrite Hadj in Hk.
      unfold keys in Hk. rewrite map_app in Hk. exact Hk. }
    rewrite (IH (pre ++ [(n, row)]) (n :: seen)).
    + apply Qplus_comp; [| reflexivity].
      change (fun x : V * edge_data => weight_or_1 (snd x)) with (@entry_weight V).
      rewrite (filter_ext_in _ (fun e => mem (fst e) (n :: keys rest))).
      * rewrite (row_weight_sum row (n :: keys rest) (wf_row G Hwf n row Hin)).
        -- simpl. rewrite sum_cons.
           rewrite <- (row_weight_between n row n Hin).
           apply Qplus_comp; [reflexivity |].
           apply sum_map_ext. intros s _.
           rewrite (row_weight_between n row s Hin). reflexivity.
        -- apply NoDup_app_remove_l in Hnd. exact Hnd.
      * intros [m d] Hm. simpl fst.
        assert (Hnode := wf_neighbor_is_node G Hwf n m row d Hin Hm).
        rewrite Hadj in Hnode. unfold keys in Hnode. rewrite map_app in Hnode.
        apply in_app_or in Hnode. simpl in Hnode.
        destruct Hnode as [Hpre | Hrest].
        -- assert (Hs : mem m seen = true) by (apply mem_In, Hseen; exact Hpre).
           rewrite Hs. cbn [negb]. symmetry. apply mem_not_In. intro Hr.
           exact (NoDup_app_disjoint _ _ m Hnd Hpre Hr).
        -- assert (Hs : mem m seen = false).
           { apply mem_not_In. intro Hs. apply Hseen in Hs.
             exact (NoDup_app_disjoint _ _ m Hnd Hs Hrest). }
           rewrite Hs. cbn [negb]. symmetry. apply mem_In. exact Hrest.
    + rewrite Hadj, <- app_assoc. reflexivity.
    + intro x. unfold keys. rewrite map_app, in_app_iff. simpl.
      rewrite Hseen. unfold keys. tauto.
Qed.

End Handshake.

Section Triangle.
Context {V : Type}.
Variable W : V -> V -> Q.
Hypothesis W_sym : forall a b, W a b == W b a.

Lemma full_plus_diagonal (ns : list V) :
  sum (map (fun a => sum (map (W a) ns)) ns) + sum (map (fun a => W a a) ns)
  == 2 * Spec.upper_triangle W ns.
Proof.
  induction ns as [| a t IH].
  - simpl. rewrite sum_nil. ring.
  - cbn [map Spec.upper_triangle].
    rewrite !sum_cons.
    rewrite (sum_map_ext (fun c => sum (W c a :: map (W c) t))
                         (fun c => W a c + sum (map (W c) t)))
      by (intros c _; rewrite sum_cons, (W_sym c a); reflexivity).
    rewrite sum_map_plus.
    transitivity
      (2 * (W a a + sum (map (W a) t))
       + (sum (map (fun c => sum (map (W c) t)) t) + sum (map (fun c => W c c) t))).
    + ring.
    + rewrite IH. ring.
Qed.

End Triangle.

Section Size.
Context {V : Type} `{Hashable V}.
Variable G : Graph V.
Hypothesis Hwf : wf_graph G = true.

Lemma degrees_twice_edges :
  sum (map (fun r => degree (fst r) (snd r)) (adj G))
  == 2 * sum (map (fun e => weight_or_1 (snd e)) (edges_data G)).
Proof.
  unfold edges_data.
  rewrite (edges_from_weight G Hwf (adj G) [] []);
    [| reflexivity | intro x; simpl; tauto].
  rewrite <- (full_plus_diagonal (weight_between G));
    [| intros a b; rewrite (weight_between_sym G Hwf a b); reflexivity].
  rewrite <- sum_map_plus.
  unfold keys. rewrite map_map.
  apply sum_map_ext. intros [n row] Hin. simpl.
  exact (degree_weight_between G Hwf n row Hin).
Qed.

(** On a well-formed graph [G.size(weight='weight')] is the sum, over the
    edges that [G.edges(data=True)] reports, of the weight of the edge, an
    edge without weight counting for 1. *)
Lemma size_sum_of_weights :
  size G = Qred (sum (map (fun e => weight_or_1 (snd e)) (edges_data G))).
Proof.
  unfold size. apply Qred_complete.
  rewrite degrees_twice_edges. field.
Qed.

End Size.

(** ** Loops and comprehensions *)

Lemma comprehension_ok {A B : Type} (xs : list A)
    (keep : A -> result bool) (f : A -> result B) (p : A -> bool) (g : A -> B) :
  (forall x, In x xs -> keep x = Ok (p x)) ->
  (forall x, In x xs -> p x = true -> f x = Ok (g x)) ->
  comprehension xs keep f = Ok (map g (filter p xs)).
Proof.
  induction xs as [| x xs IH]; intros Hkeep Hf; simpl.
  - reflexivity.
  - rewrite (Hkeep x (or_introl eq_refl)). simpl.
    rewrite IH.
    + destruct (p x) eqn:Ep; [| reflexivity].
      rewrite (Hf x (or_introl eq_refl) Ep). reflexivity.
    + intros y Hy. apply Hkeep. right. exact Hy.
    + intros y Hy. apply Hf. right. exact Hy.
Qed.

Lemma sum_of_ok {A : Type} (xs : list A) (f : A -> result Q) (g : A -> Q) :
  (forall x, In x xs -> f x = Ok (g x)) ->
  sum_of xs f = Ok (sum (map g xs)).
Proof.
  intro Hf. unfold sum_of.
  rewrite (comprehension_ok xs (fun _ => Ok true) f (fun _ => true) g).
  - simpl. rewrite filter_all; [reflexivity | reflexivity].
  - reflexivity.
  - intros x Hx _. exact (Hf x Hx).
Qed.

(** ** Estrangement *)

Section EstrangementFacts.
Context {V : Type} `{Hashable V} {L : Type} `{Hashable L}.

Lemma consort_edge_set_empty (G Zgraph : Graph V) :
  (forall e, In e (edges Zgraph) -> ~ In e (edges G)) ->
  set_and (set_of (edges Zgraph)) (set_of (edges G)) = [].
Proof.
  intro Hdisj. apply set_and_nil. intros e Hz Hg.
  exact (Hdisj e (proj1 (In_set_of e _) Hz) (proj1 (In_set_of e _) Hg)).
Qed.

Lemma consort_edge_set_inhabited (G Zgraph : Graph V) :
  (exists e, In e (edges Zgraph) /\ In e (edges G)) ->
  Nat.eqb (List.length (set_and (set_of (edges Zgraph)) (set_of (edges G)))) 0
  = false.
Proof.
  intros [e [Hz Hg]].
  assert (Hin : In e (set_and (set_of (edges Zgraph)) (set_of (edges G)))).
  { apply In_set_and. split; apply In_set_of; assumption. }
  destruct (set_and (set_of (edges Zgraph)) (set_of (edges G))).
  - destruct Hin.
  - reflexivity.
Qed.

(** C10: when no edge that [Zgraph] reports is an edge that [G] reports,
    [Estrangement] returns 0 whatever [label_dict] is: the labels are not
    looked up, and a [label_dict] without an entry for an endpoint of an
    edge of [Zgraph] raises nothing. *)
Theorem Estrangement_disjoint_returns_0
    (G : Graph V) (label_dict : dict V L) (Zgraph : Graph V) :
  (forall e, In e (edges Zgraph) -> ~ In e (edges G)) ->
  Estrangement G label_dict Zgraph = Ok 0.
Proof.
  intro Hdisj. unfold Estrangement.
  rewrite (consort_edge_set_empty G Zgraph Hdisj). reflexivity.
Qed.

Lemma estranged_weights_ok (label_dict : dict V L) (Zgraph : Graph V) :
  (forall e, In e (edges_data Zgraph) -> snd e <> None) ->
  (forall e, In e (edges_data Zgraph) ->
     get (fst (fst e)) label_dict <> None /\ get (snd (fst e)) label_dict <> None) ->
  comprehension (edges_data Zgraph)
    (fun e => l0 <- getitem (fst (fst e)) label_dict ;;
              l1 <- getitem (snd (fst e)) label_dict ;;
              Ok (negb (py_eqb l0 l1)))
    (fun e => weight_of (snd e))
  = Ok (map (fun e => match snd e with Some w => w | None => 0 end)
            (filter (Spec.estranged label_dict) (edges_data Zgraph))).
Proof.
  intros Hw Hl. apply comprehension_ok.
  - intros e He. destruct (Hl e He) as [Hu Hv]. cbv beta.
    unfold Spec.estranged, getitem.
    destruct (get (fst (fst e)) label_dict); [| congruence].
    destruct (get (snd (fst e)) label_dict); [| congruence].
    reflexivity.
  - intros [[u v] d] He _. specialize (Hw _ He). simpl in Hw. simpl.
    destruct d; [reflexivity | congruence].
Qed.

End EstrangementFacts.

Ltac each_member H :=
  vm_compute in H;
  repeat (destruct H as [H | H]; [try subst |]);
  try contradiction.

Lemma Estrangement_disjoint_returns_0_witness :
  get 4%Z (@nil (Z * string)) = None
  /\ Estrangement Samples.g0 (@nil (Z * string)) Samples.z_4_5 = Ok 0.
Proof.
  split; [reflexivity |].
  apply (Estrangement_disjoint_returns_0 Samples.g0 [] Samples.z_4_5).
  intros e Hz Hg. each_member Hz. each_member Hg; discriminate Hg.
Defined.

(** The sample of the docstring of [Estrangement]: the only edge of the
    consort graph joins two nodes of community ["a"], and the result is 0. *)
Example Estrangement_docstring_sample :
  Estrangement Samples.g0 Samples.communities Samples.g1 = Ok 0.
Proof. vm_compute. reflexivity. Qed.

(** ** The edges of a well-formed graph *)

Section EdgeFacts.
Context {V : Type} `{Hashable V}.

Lemma set_add_fresh (x : V) (s : list V) : ~ In x s -> set_add x s = s ++ [x].
Proof.
  intro Hx. unfold set_add. apply mem_not_In in Hx. rewrite Hx. reflexivity.
Qed.

Lemma fold_set_add_NoDup (xs acc : list V) :
  NoDup (acc ++ xs) -> fold_left (fun s x => set_add x s) xs acc = acc ++ xs.
Proof.
  revert acc. induction xs as [| x xs IH]; intros acc Hnd; simpl.
  - rewrite app_nil_r. reflexivity.
  - rewrite set_add_fresh.
    + rewrite IH; rewrite <- app_assoc; [reflexivity | exact Hnd].
    + intro Hx. apply NoDup_remove_2 in Hnd. apply Hnd.
      apply in_or_app. left. exact Hx.
Qed.

Lemma set_of_NoDup (xs : list V) : NoDup xs -> set_of xs = xs.
Proof.
  intro Hnd. unfold set_of. rewrite fold_set_add_NoDup; [reflexivity | exact Hnd].
Qed.

Lemma NoDup_keys_filter {A : Type} (p : V * A -> bool) (d : dict V A) :
  NoDup (keys d) -> NoDup (keys (filter p d)).
Proof.
  induction d as [| [k v] d IH]; simpl; intro Hnd; [constructor |].
  inversion Hnd as [| ? ? Hk Hnd']; subst.
  destruct (p (k, v)); simpl; [| exact (IH Hnd')].
  constructor; [| exact (IH Hnd')].
  intro Hin. apply Hk. unfold keys in *. apply in_map_iff in Hin.
  destruct Hin as [[k' v'] [Hk' Hf]]. simpl in Hk'. subst k'.
  apply filter_In in Hf. exact (In_keys _ _ _ (proj1 Hf)).
Qed.

Lemma edges_from_source (a : dict V (dict V edge_data)) (seen : list V) (e : V * V) :
  In e (map fst (edges_from seen a)) -> In (fst e) (keys a).
Proof.
  revert seen. induction a as [| [n row] a IH]; intro seen; simpl; [tauto |].
  rewrite map_app, in_app_iff, map_map. simpl. intros [Hrow | Hrest].
  - apply in_map_iff in Hrow. destruct Hrow as [x [<- _]]. left. reflexivity.
  - right. exact (IH _ Hrest).
Qed.

Lemma edges_from_NoDup (a : dict V (dict V edge_data)) (seen : list V) :
  NoDup (keys a) ->
  (forall n row, In (n, row) a -> NoDup (keys row)) ->
  NoDup (map fst (edges_from seen a)).
Proof.
  revert seen. induction a as [| [n row] a IH]; intros seen Hnd Hrows; simpl.
  - constructor.
  - inversion Hnd as [| ? ? Hn Hnd']; subst.
    rewrite map_app, map_map. simpl. apply NoDup_app.
    + rewrite <- (map_map fst (fun k => (n, k))).
      apply Finite.Injective_map_NoDup.
      * intros x y E. injection E. trivial.
      * apply (NoDup_keys_filter (fun e => negb (mem (fst e) seen)) row).
        apply (Hrows n row). left. reflexivity.
    + apply IH; [exact Hnd' |].
      intros m r Hin. apply (Hrows m r). right. exact Hin.
    + intros e He Hrest. apply edges_from_source in Hrest.
      apply in_map_iff in He. destruct He as [x [<- _]]. exact (Hn Hrest).
Qed.

Lemma edges_NoDup (G : Graph V) : wf_graph G = true -> NoDup (edges G).
Proof.
  intro Hwf. unfold edges, edges_data. apply edges_from_NoDup.
  - exact (wf_nodes G Hwf).
  - exact (wf_row G Hwf).
Qed.

Lemma fold_weights_get (es : dict (V * V) edge_data) (acc : dict (V * V) Q)
    (e : V * V) :
  NoDup (keys es) ->
  get e (fold_left
           (fun acc x => match snd x with
                         | Some w => setitem (fst x) w acc
                         | None => acc
                         end)
           es acc)
  = match get e es with
    | Some (Some w) => Some w
    | _ => get e acc
    end.
Proof.
  revert acc. induction es as [| [k d] es IH]; intros acc Hnd; simpl.
  - reflexivity.
  - inversion Hnd as [| ? ? Hk Hnd']; subst. rewrite (IH _ Hnd').
    destruct (py_eqb e k) eqn:E.
    + apply py_eqb_eq in E. subst k.
      assert (Hnone : get e es = None).
      { destruct (get e es) eqn:Eg; [| reflexivity].
        exfalso. apply Hk. apply get_keys. rewrite Eg. discriminate. }
      rewrite Hnone. destruct d as [w |]; [| reflexivity].
      rewrite get_setitem, py_eqb_refl. reflexivity.
    + destruct (get e es) as [[w |] |]; try reflexivity;
        (destruct d as [w' |]; [| reflexivity]);
        rewrite get_setitem, E; reflexivity.
Qed.

End EdgeFacts.

(** ** Which exceptions the loops can raise *)

Lemma getitem_raises_only {K V : Type} `{Hashable K} (k : K) (d : dict K V) :
  raises_only KeyError (getitem k d).
Proof.
  unfold getitem. destruct (get k d); simpl; [exact I | reflexivity].
Qed.

Lemma getitem_missing {K V : Type} `{Hashable K} (k : K) (d : dict K V) :
  get k d = None -> getitem k d = Raise KeyError.
Proof. intro Hg. unfold getitem. rewrite Hg. reflexivity. Qed.

Lemma bind_raises_only {A B : Type} (e : exn) (c : result A) (k : A -> result B) :
  raises_only e c -> (forall a, raises_only e (k a)) -> raises_only e (bind c k).
Proof.
  intros Hc Hk. destruct c as [a | e']; simpl; [apply Hk | exact Hc].
Qed.

Lemma comprehension_raises_only {A B : Type} (e : exn) (xs : list A)
    (keep : A -> result bool) (f : A -> result B) :
  (forall x, In x xs -> raises_only e (keep x)) ->
  (forall x, In x xs -> raises_only e (f x)) ->
  raises_only e (comprehension xs keep f).
Proof.
  induction xs as [| x xs IH]; intros Hkeep Hf; simpl.
  - exact I.
  - assert (IH' : raises_only e (comprehension xs keep f)).
    { apply IH; intros y Hy; [apply Hkeep | apply Hf]; right; exact Hy. }
    apply bind_raises_only; [apply Hkeep; left; reflexivity |].
    intros [|]; [| exact IH'].
    apply bind_raises_only; [apply Hf; left; reflexivity |].
    intro y. apply bind_raises_only; [exact IH' | intro ys; exact I].
Qed.

Lemma comprehension_raises {A B : Type} (e : exn) (xs : list A)
    (keep : A -> result bool) (f : A -> result B) :
  (forall x, In x xs -> raises_only e (keep x)) ->
  (forall x, In x xs -> raises_only e (f x)) ->
  (exists x, In x xs
             /\ (keep x = Raise e \/ (keep x = Ok true /\ f x = Raise e))) ->
  comprehension xs keep f = Raise e.
Proof.
  induction xs as [| x xs IH]; intros Hkeep Hf [bad [Hin Hbad]].
  - destruct Hin.
  - assert (Hrest : raises_only e (comprehension xs keep f)).
    { apply comprehension_raises_only; intros y Hy;
        [apply Hkeep | apply Hf]; right; exact Hy. }
    assert (IH' : In bad xs -> comprehension xs keep f = Raise e).
    { intro Hb. apply IH.
      - intros y Hy. apply Hkeep. right. exact Hy.
      - intros y Hy. apply Hf. right. exact Hy.
      - exists bad. split; assumption. }
    simpl.
    assert (Hkx := Hkeep x (or_introl eq_refl)).
    assert (Hfx := Hf x (or_introl eq_refl)).
    destruct Hin as [-> | Hin].
    + destruct Hbad as [Hk | [Hk Hfb]].
      * rewrite Hk. reflexivity.
      * rewrite Hk. simpl. rewrite Hfb. reflexivity.
    + specialize (IH' Hin).
      destruct (keep x) as [[|] | e']; simpl.
      * destruct (f x) as [y | e']; simpl.
        -- rewrite IH'. reflexivity.
        -- simpl in Hfx. congruence.
      * exact IH'.
      * simpl in Hkx. congruence.
Qed.

Lemma sum_of_raises_only {A : Type} (e : exn) (xs : list A) (f : A -> result Q) :
  (forall x, In x xs -> raises_only e (f x)) -> raises_only e (sum_of xs f).
Proof.
  intro Hf. unfold sum_of. apply bind_raises_only; [| intro ws; exact I].
  apply comprehension_raises_only; [intros x _; exact I | exact Hf].
Qed.

Lemma sum_of_raises {A : Type} (e : exn) (xs : list A) (f : A -> result Q) :
  (forall x, In x xs -> raises_only e (f x)) ->
  (exists x, In x xs /\ f x = Raise e) ->
  sum_of xs f = Raise e.
Proof.
  intros Hf [bad [Hin Hbad]]. unfold sum_of.
  rewrite (comprehension_raises e xs (fun _ => Ok true) f).
  - reflexivity.
  - intros x _. exact I.
  - exact Hf.
  - exists bad. split; [exact Hin |]. right. split; [reflexivity | exact Hbad].
Qed.

(** ** Failures on degenerate and incomplete inputs *)

Section Failures.
Context {V : Type} `{Hashable V}.

Lemma unweighted_distance_no_edge (g0 g1 : Graph V) :
  edges g0 = [] -> edges g1 = [] ->
  graph_distance g0 g1 false = Raise ZeroDivisionError.
Proof.
  intros E0 E1. unfold graph_distance. rewrite E0, E1. reflexivity.
Qed.

Lemma node_distance_no_node (g0 g1 : Graph V) :
  nodes g0 = [] -> nodes g1 = [] ->
  node_graph_distance g0 g1 = Raise ZeroDivisionError.
Proof.
  intros E0 E1. unfold node_graph_distance. rewrite E0, E1. reflexivity.
Qed.

Lemma getitem_missing_weight (G : Graph V) (x : V * V * edge_data) :
  wf_graph G = true -> In x (edges_data G) -> snd x = None ->
  getitem (fst x) (get_edge_attributes G) = Raise KeyError.
Proof.
  intros Hwf Hin Hnone. destruct x as [e d]. simpl in Hnone. subst d. simpl.
  apply getitem_missing. unfold get_edge_attributes.
  rewrite fold_weights_get; [| exact (edges_NoDup G Hwf)].
  rewrite (In_get e None (edges_data G) (edges_NoDup G Hwf) Hin). reflexivity.
Qed.

Lemma norm_raises (G : Graph V) :
  wf_graph G = true ->
  (exists x, In x (edges_data G) /\ snd x = None) ->
  sum_of (edges G)
    (fun i => w <- getitem i (get_edge_attributes G) ;; Ok (square w))
  = Raise KeyError.
Proof.
  intros Hwf [x [Hin Hnone]]. apply sum_of_raises.
  - intros e _. apply bind_raises_only; [apply getitem_raises_only |].
    intro w. exact I.
  - exists (fst x). split.
    + unfold edges. apply in_map. exact Hin.
    + rewrite (getitem_missing_weight G x Hwf Hin Hnone). reflexivity.
Qed.

Lemma weighted_distance_missing_weight (g0 g1 : Graph V) :
  wf_graph g0 = true -> wf_graph g1 = true ->
  (exists x, (In x (edges_data g0) \/ In x (edges_data g1)) /\ snd x = None) ->
  graph_distance g0 g1 true = Raise KeyError.
Proof.
  intros Hwf0 Hwf1 [x [Hin Hnone]]. unfold graph_distance. cbn [negb].
  set (inter := set_and (set_of (edges g1)) (set_of (edges g0))).
  assert (Hdot : raises_only KeyError
            (sum_of inter
               (fun i => w0 <- getitem i (get_edge_attributes g0) ;;
                         w1 <- getitem i (get_edge_attributes g1) ;;
                         Ok (w0 * w1)))).
  { apply sum_of_raises_only. intros e _.
    apply bind_raises_only; [apply getitem_raises_only |]. intro w0.
    apply bind_raises_only; [apply getitem_raises_only |]. intro w1. exact I. }
  destruct (sum_of inter _) as [dot | e]; [| simpl in Hdot; subst e; reflexivity].
  cbn [bind].
  assert (H1 : raises_only KeyError
            (sum_of (edges g1)
               (fun i => w <- getitem i (get_edge_attributes g1) ;; Ok (square w)))).
  { apply sum_of_raises_only. intros e _.
    apply bind_raises_only; [apply getitem_raises_only |]. intro w. exact I. }
  destruct Hin as [Hin | Hin].
  - destruct (sum_of (edges g1) _) as [e1 | e]; [| simpl in H1; subst e; reflexivity].
    cbn [bind]. rewrite (norm_raises g0 Hwf0); [reflexivity |].
    exists x. split; assumption.
  - rewrite (norm_raises g1 Hwf1); [reflexivity |].
    exists x. split; assumption.
Qed.

Context {L : Type} `{Hashable L}.

Lemma label_lookup_raises_only (label_dict : dict V L) (e : V * V * edge_data) :
  raises_only KeyError
    (l0 <- getitem (fst (fst e)) label_dict ;;
     l1 <- getitem (snd (fst e)) label_dict ;;
     Ok (negb (py_eqb l0 l1))).
Proof.
  apply bind_raises_only; [apply getitem_raises_only |]. intro l0.
  apply bind_raises_only; [apply getitem_raises_only |]. intro l1. exact I.
Qed.

Lemma weight_of_raises_only (d : edge_data) : raises_only KeyError (weight_of d).
Proof. destruct d; simpl; [exact I | reflexivity]. Qed.

Lemma Estrangement_missing_input
    (G : Graph V) (label_dict : dict V L) (Zgraph : Graph V) :
  (exists e, In e (edges Zgraph) /\ In e (edges G)) ->
  (exists x, In x (edges_data Zgraph)
             /\ (get (fst (fst x)) label_dict = None
                 \/ get (snd (fst x)) label_dict = None
                 \/ (Spec.estranged label_dict x = true /\ snd x = None))) ->
  Estrangement G label_dict Zgraph = Raise KeyError.
Proof.
  intros Hcommon [x [Hin Hbad]]. unfold Estrangement.
  rewrite (consort_edge_set_inhabited G Zgraph Hcommon).
  rewrite (comprehension_raises KeyError); [reflexivity | | |].
  - intros e _. apply label_lookup_raises_only.
  - intros e _. apply weight_of_raises_only.
  - exists x. split; [exact Hin |].
    unfold Spec.estranged in Hbad. unfold getitem.
    destruct (get (fst (fst x)) label_dict) as [l0 |]; [| left; reflexivity].
    destruct (get (snd (fst x)) label_dict) as [l1 |]; [| left; reflexivity].
    destruct Hbad as [Hb | [Hb | [Hest Hnone]]]; try discriminate.
    right. simpl. rewrite Hest. split; [reflexivity |].
    destruct x as [e d]. simpl in Hnone. subst d. reflexivity.
Qed.

Lemma Estrangement_default_weight
    (G : Graph V) (label_dict : dict V L) (Zgraph : Graph V) :
  wf_graph G = true ->
  (forall e, In e (edges_data Zgraph) -> snd e <> None) ->
  (forall e, In e (edges_data Zgraph) ->
     get (fst (fst e)) label_dict <> None /\ get (snd (fst e)) label_dict <> None) ->
  (exists e, In e (edges Zgraph) /\ In e (edges G)) ->
  Estrangement G label_dict Zgraph
  = truediv (Spec.estranged_weight label_dict Zgraph)
            (Qred (sum (map (fun e => weight_or_1 (snd e)) (edges_data G)))).
Proof.
  intros Hwf HwZ Hl Hcommon. unfold Estrangement.
  rewrite (consort_edge_set_inhabited G Zgraph Hcommon).
  rewrite (estranged_weights_ok label_dict Zgraph HwZ Hl).
  cbn [bind]. rewrite (size_sum_of_weights G Hwf). reflexivity.
Qed.

End Failures.

Lemma confidence_interval_empty_sample :
  PrimFloat.is_nan (confidence_interval []) = true.
Proof. vm_compute. reflexivity. Qed.

Section FailureSummary.
Context {V : Type} `{Hashable V} {L : Type} `{Hashable L}.


End FailureSummary.



(** ** Building graphs *)

Lemma fold_left_invariant {A B : Type} (P : A -> Prop) (f : A -> B -> A)
    (l : list B) (a : A) :
  P a -> (forall a x, P a -> P (f a x)) -> P (fold_left f l a).
Proof.
  revert a. induction l as [| x l IH]; intros a Ha Hstep; simpl.
  - exact Ha.
  - apply IH; [apply Hstep; exact Ha | exact Hstep].
Qed.

Lemma for_each_invariant {A S : Type} (P : list A -> S -> Prop)
    (xs : list A) (body : S -> A -> result S) (acc : S) :
  P [] acc ->
  (forall pre x acc, P pre acc -> In x xs ->
     exists acc', body acc x = Ok acc' /\ P (pre ++ [x]) acc') ->
  exists r, for_each xs body acc = Ok r /\ P xs r.
Proof.
  intros Hacc Hstep.
  assert (Hgen : forall rest pre acc,
             P pre acc -> (forall x, In x rest -> In x xs) ->
             exists r, for_each rest body acc = Ok r /\ P (pre ++ rest) r).
  { induction rest as [| x rest IH]; intros pre a Ha Hsub; simpl.
    - exists a. rewrite app_nil_r. split; [reflexivity | exact Ha].
    - destruct (Hstep pre x a Ha (Hsub x (or_introl eq_refl))) as [a' [Hb Ha']].
      rewrite Hb. simpl.
      destruct (IH (pre ++ [x]) a' Ha') as [r [Hr HP]].
      + intros y Hy. apply Hsub. right. exact Hy.
      + exists r. split; [exact Hr |]. rewrite <- app_assoc in HP. exact HP. }
  exact (Hgen xs [] acc Hacc (fun x Hx => Hx)).
Qed.

Section GraphBuilding.
Context {V : Type} `{Hashable V}.

Lemma get_add_node (n u : V) (G : Graph V) :
  get n (adj (add_node u G))
  = match get n (adj G) with
    | Some row => Some row
    | None => if py_eqb n u then Some [] else None
    end.
Proof.
  unfold add_node, contains. destruct (get u (adj G)) as [r |] eqn:Eu.
  - destruct (get n (adj G)) as [row |] eqn:En; [reflexivity |].
    destruct (py_eqb n u) eqn:E; [| reflexivity].
    apply py_eqb_eq in E. subst n. congruence.
  - simpl. rewrite get_app. destruct (get n (adj G)); [reflexivity |].
    simpl. destruct (py_eqb n u); reflexivity.
Qed.

Lemma old_row_after_add_node (x u v m : V) (d : edge_data) (G : Graph V) :
  In (m, d) (get_default x (adj (add_node v (add_node u G))) []) ->
  exists row0, get x (adj G) = Some row0 /\ In (m, d) row0.
Proof.
  unfold get_default. rewrite !get_add_node.
  destruct (get x (adj G)) as [row0 |].
  - intro Hin. exists row0. split; [reflexivity | exact Hin].
  - destruct (py_eqb x u); [intros [] |].
    destruct (py_eqb x v); intros [].
Qed.

Lemma add_edge_keys (m u v : V) (attr : edge_data) (G : Graph V) :
  get m (adj (add_edge u v attr G)) <> None
  <-> m = u \/ m = v \/ get m (adj G) <> None.
Proof.
  unfold add_edge. cbn [adj]. rewrite !get_setitem, !get_add_node.
  destruct (py_eqb m v) eqn:Ev.
  - apply py_eqb_eq in Ev. split; [auto | discriminate].
  - destruct (py_eqb m u) eqn:Eu.
    + apply py_eqb_eq in Eu. split; [auto | discriminate].
    + apply py_eqb_false in Ev. apply py_eqb_false in Eu.
      destruct (get m (adj G)); split; intros; try tauto; try discriminate.
Qed.

Lemma add_edge_row (n u v : V) (w : Q) (G : Graph V) (row : dict V edge_data) :
  get n (adj (add_edge u v (Some w) G)) = Some row ->
  (get n (adj G) = Some row /\ n <> u /\ n <> v)
  \/ ((n = u \/ n = v)
      /\ row <> []
      /\ forall m d, In (m, d) row ->
           (d = Some w /\ (m = u \/ m = v))
           \/ exists row0, get n (adj G) = Some row0 /\ In (m, d) row0).
Proof.
  unfold add_edge. cbn [adj update].
  set (a2 := adj (add_node v (add_node u G))).
  rewrite !get_setitem.
  assert (Hru : forall m d,
             In (m, d) (setitem v (Some w) (get_default u a2 [])) ->
             (d = Some w /\ (m = u \/ m = v))
             \/ exists row0, get u (adj G) = Some row0 /\ In (m, d) row0).
  { intros m d Hin. apply In_setitem in Hin. destruct Hin as [E | Hin].
    - injection E as -> ->. left. auto.
    - right. exact (old_row_after_add_node u u v m d G Hin). }
  destruct (py_eqb n v) eqn:Ev.
  - apply py_eqb_eq in Ev. subst n. intros [= <-]. right.
    split; [auto |]. split; [apply setitem_not_nil |].
    intros m d Hin. apply In_setitem in Hin. destruct Hin as [E | Hin].
    + injection E as -> ->. left. auto.
    + unfold get_default in Hin. rewrite get_setitem in Hin.
      destruct (py_eqb v u) eqn:Evu.
      * apply py_eqb_eq in Evu. subst v. exact (Hru m d Hin).
      * right. exact (old_row_after_add_node v u v m d G Hin).
  - destruct (py_eqb n u) eqn:Eu.
    + apply py_eqb_eq in Eu. subst n. intros [= <-]. right.
      split; [auto |]. split; [apply setitem_not_nil |]. exact Hru.
    + intro Hg. left. apply py_eqb_false in Ev. apply py_eqb_false in Eu.
      split; [| split; assumption].
      unfold a2 in Hg. rewrite !get_add_node in Hg.
      destruct (get n (adj G)); [exact Hg |].
      rewrite (py_eqb_neq n u Eu) in Hg. rewrite (py_eqb_neq n v Ev) in Hg.
      discriminate Hg.
Qed.

Lemma dense_empty : dense empty_graph.
Proof. intros n row Hg. discriminate Hg. Qed.

Lemma dense_add_edge (u v : V) (w : Q) (G : Graph V) :
  dense G -> dense (add_edge u v (Some w) G).
Proof.
  intros HG n row Hg. apply add_edge_row in Hg.
  destruct Hg as [[Hold _] | [_ [Hne Hitems]]].
  - destruct (HG n row Hold) as [Hne Hitems]. split; [exact Hne |].
    intros m d Hin. destruct (Hitems m d Hin) as [Hd Hm].
    split; [exact Hd |]. apply add_edge_keys. auto.
  - split; [exact Hne |]. intros m d Hin.
    destruct (Hitems m d Hin) as [[-> Hm] | [row0 [Hrow0 Hin0]]].
    + split; [discriminate |]. apply add_edge_keys. tauto.
    + destruct (HG n row0 Hrow0) as [_ Hold]. destruct (Hold m d Hin0) as [Hd Hm].
      split; [exact Hd |]. apply add_edge_keys. auto.
Qed.

End GraphBuilding.

Section DigraphBuilding.
Context {V : Type} `{Hashable V}.

Lemma get_di_add_node (x n : V) (D : DiGraph V) :
  get x (succ (di_add_node n D))
  = match get x (succ D) with
    | Some l => Some l
    | None => if py_eqb x n then Some [] else None
    end.
Proof.
  unfold di_add_node, contains. destruct (get n (succ D)) as [l |] eqn:En.
  - destruct (get x (succ D)) as [l' |] eqn:Ex; [reflexivity |].
    destruct (py_eqb x n) eqn:E; [| reflexivity].
    apply py_eqb_eq in E. subst x. congruence.
  - simpl. rewrite get_app. destruct (get x (succ D)); [reflexivity |].
    simpl. destruct (py_eqb x n); reflexivity.
Qed.

Lemma successors_after_add_nodes (x u v : V) (D : DiGraph V) (h : V) (t : list V) :
  get x (succ (di_add_node v (di_add_node u D))) = Some (h :: t) <->
  get x (succ D) = Some (h :: t).
Proof.
  rewrite !get_di_add_node. destruct (get x (succ D)) as [l |]; [tauto |].
  destruct (py_eqb x u); [split; discriminate |].
  destruct (py_eqb x v); split; discriminate.
Qed.

Lemma set_add_head (v h : V) (t : list V) :
  exists t', set_add v (h :: t) = h :: t'.
Proof.
  unfold set_add. destruct (mem v (h :: t)).
  - exists t. reflexivity.
  - exists (t ++ [v]). reflexivity.
Qed.

Lemma di_add_edge_head (x u v : V) (D : DiGraph V) (h : V) (t : list V) :
  get x (succ (di_add_edge u v D)) = Some (h :: t) ->
  (x = u /\ h = v) \/ exists t', get x (succ D) = Some (h :: t').
Proof.
  unfold di_add_edge. cbn [succ]. rewrite get_setitem.
  destruct (py_eqb x u) eqn:E.
  - apply py_eqb_eq in E. subst x. unfold get_default.
    destruct (get u (succ (di_add_node v (di_add_node u D)))) as [[| h0 t0] |] eqn:Eg.
    + intros [= <- _]. left. auto.
    + apply successors_after_add_nodes in Eg.
      destruct (set_add_head v h0 t0) as [t' Ht']. rewrite Ht'.
      intros [= <- _]. right. exists t0. exact Eg.
    + intros [= <- _]. left. auto.
  - intro Hg. apply successors_after_add_nodes in Hg. right. exists t. exact Hg.
Qed.

Lemma di_add_edge_keeps (x u v : V) (D : DiGraph V) (h : V) (t : list V) :
  get x (succ D) = Some (h :: t) ->
  exists t', get x (succ (di_add_edge u v D)) = Some (h :: t').
Proof.
  intro Hg. apply (successors_after_add_nodes x u v) in Hg.
  unfold di_add_edge. cbn [succ]. rewrite get_setitem.
  destruct (py_eqb x u) eqn:E.
  - apply py_eqb_eq in E. subst x. unfold get_default. rewrite Hg.
    destruct (set_add_head v h t) as [t' Ht']. rewrite Ht'.
    exists t'. reflexivity.
  - exists t. exact Hg.
Qed.

Lemma di_add_edge_source (u v : V) (D : DiGraph V) :
  exists h t, get u (succ (di_add_edge u v D)) = Some (h :: t).
Proof.
  unfold di_add_edge. cbn [succ]. rewrite get_setitem, py_eqb_refl.
  destruct (set_add v (get_default u (succ (di_add_node v (di_add_node u D))) []))
    as [| h t] eqn:E.
  - exfalso. exact (set_add_not_nil _ _ E).
  - exists h, t. reflexivity.
Qed.

Lemma fold_max_In {A : Type} (key : A -> Q) (rest : list A) (x : A) :
  In (fold_left (fun best y => if Qlt_le_dec (key best) (key y) then y else best)
                rest x)
     (x :: rest).
Proof.
  revert x. induction rest as [| y rest IH]; intro x; simpl.
  - left. reflexivity.
  - destruct (IH (if Qlt_le_dec (key x) (key y) then y else x)) as [E | Hin].
    + rewrite <- E. destruct (Qlt_le_dec (key x) (key y)); auto.
    + auto.
Qed.

Lemma max_by_In {A : Type} (key : A -> Q) (xs : list A) (b : A) :
  max_by key xs = Ok b -> In b xs.
Proof.
  destruct xs as [| x rest]; simpl; [discriminate |].
  intros [= <-]. apply fold_max_In.
Qed.

Lemma max_by_ok {A : Type} (key : A -> Q) (xs : list A) :
  xs <> [] -> exists b, max_by key xs = Ok b.
Proof.
  destruct xs as [| x rest]; [congruence |].
  intros _. eexists. reflexivity.
Qed.

End DigraphBuilding.

(** ** Label matching *)

Section MatchingFacts.
Context {N : Type} `{Hashable N} {L : Type} `{Hashable L}.

Lemma nodesets_nonempty (d : dict N L) (l : L) (s : list N) :
  In (l, s) (nodesets_per_label d) -> s <> [].
Proof.
  unfold nodesets_per_label. revert l s.
  apply (fold_left_invariant
           (fun acc : dict L (list N) => forall l s, In (l, s) acc -> s <> [])).
  - intros l s [].
  - intros acc [n l0] Hacc l s Hin. simpl in Hin.
    apply In_setitem in Hin. destruct Hin as [E | Hin].
    + injection E as -> ->. apply set_add_not_nil.
    + exact (Hacc l s Hin).
Qed.

Lemma nodesets_not_nil (d : dict N L) : d <> [] -> nodesets_per_label d <> [].
Proof.
  destruct d as [| x d]; [congruence |]. intros _.
  unfold nodesets_per_label. simpl.
  apply (fold_left_invariant (fun acc : dict L (list N) => acc <> [])).
  - discriminate.
  - intros acc y _. apply setitem_not_nil.
Qed.

Lemma len_not_zero {A : Type} (l : list A) : l <> [] -> Qeq_bool (len l) 0 = false.
Proof.
  intro Hl. destruct (Qeq_bool (len l) 0) eqn:E; [| reflexivity].
  apply Qeq_bool_eq in E. destruct l as [| x l]; [congruence |].
  unfold len, Qeq in E. simpl in E. lia.
Qed.

Lemma jaccard_overlap_ok (nodeset_t_minus_1 nodeset_t : list N) :
  nodeset_t <> [] ->
  exists j, jaccard_overlap nodeset_t_minus_1 nodeset_t = Ok j.
Proof.
  intro Ht. unfold jaccard_overlap, truediv.
  rewrite len_not_zero.
  - eexists. reflexivity.
  - intro E. apply set_or_nil in E. exact (Ht (proj2 E)).
Qed.

Lemma overlap_row_ok (t : L * list N) (t1s : dict L (list N)) (g : Graph L) :
  snd t <> [] -> dense g ->
  exists g',
    for_each t1s
      (fun g t1 =>
         jaccard <- jaccard_overlap (snd t1) (snd t) ;;
         Ok (add_edge (fst t1) (fst t) (Some jaccard) g))
      g = Ok g'
    /\ dense g'
    /\ (forall m, get m (adj g) <> None -> get m (adj g') <> None)
    /\ (forall m, get m (adj g') <> None ->
          get m (adj g) <> None \/ m = fst t \/ In m (keys t1s))
    /\ (t1s <> [] -> get (fst t) (adj g') <> None).
Proof.
  intros Ht Hg.
  destruct (for_each_invariant
              (fun pre g' =>
                 dense g'
                 /\ (forall m, get m (adj g) <> None -> get m (adj g') <> None)
                 /\ (forall m, get m (adj g') <> None ->
                       get m (adj g) <> None \/ m = fst t \/ In m (keys t1s))
                 /\ (pre <> [] -> get (fst t) (adj g') <> None))
              t1s
              (fun g t1 =>
                 jaccard <- jaccard_overlap (snd t1) (snd t) ;;
                 Ok (add_edge (fst t1) (fst t) (Some jaccard) g))
              g) as [g' [Hrun HP]].
  - split; [exact Hg |]. split; [auto |]. split; [auto |]. congruence.
  - intros pre t1 a [Hd [Hmono [Hsub _]]] Hin.
    destruct (jaccard_overlap_ok (snd t1) (snd t) Ht) as [j Hj].
    rewrite Hj. cbn [bind]. eexists. split; [reflexivity |].
    split; [apply dense_add_edge; exact Hd |].
    split; [| split].
    + intros m Hm. apply add_edge_keys. right. right. exact (Hmono m Hm).
    + intros m Hm. apply add_edge_keys in Hm.
      destruct Hm as [-> | [-> | Hm]].
      * right. right. destruct t1 as [l1 s1]. exact (In_keys _ _ _ Hin).
      * right. left. reflexivity.
      * exact (Hsub m Hm).
    + intros _. apply add_edge_keys. right. left. reflexivity.
  - exists g'. split; [exact Hrun |]. exact HP.
Qed.

Lemma build_overlap_graph_ok (ts t1s : dict L (list N)) :
  (forall l s, In (l, s) ts -> s <> []) ->
  t1s <> [] ->
  exists g,
    build_overlap_graph ts t1s = Ok g
    /\ dense g
    /\ (forall l, In l (keys ts) -> get l (adj g) <> None)
    /\ (forall m, get m (adj g) <> None -> In m (keys ts) \/ In m (keys t1s)).
Proof.
  intros Hts Ht1s. unfold build_overlap_graph.
  destruct (for_each_invariant
              (fun pre g =>
                 dense g
                 /\ (forall l, In l (keys pre) -> get l (adj g) <> None)
                 /\ (forall m, get m (adj g) <> None ->
                       In m (keys ts) \/ In m (keys t1s)))
              ts
              (fun g t =>
                 for_each t1s
                   (fun g t1 =>
                      jaccard <- jaccard_overlap (snd t1) (snd t) ;;
                      Ok (add_edge (fst t1) (fst t) (Some jaccard) g))
                   g)
              empty_graph) as [g [Hrun HP]].
  - split; [exact dense_empty |]. split; [intros l [] |].
    intros m Hm. exfalso. apply Hm. reflexivity.
  - intros pre t a [Hd [Hpre Hsub]] Hin.
    assert (Hne : snd t <> []).
    { destruct t as [l s]. exact (Hts l s Hin). }
    destruct (overlap_row_ok t t1s a Hne Hd)
      as [g' [Hrun [Hd' [Hmono [Hsub' Hnew]]]]].
    exists g'. split; [exact Hrun |]. split; [exact Hd' |]. split.
    + intros l Hl. unfold keys in Hl. rewrite map_app in Hl.
      apply in_app_or in Hl. destruct Hl as [Hl | [<- | []]].
      * apply Hmono. apply Hpre. exact Hl.
      * exact (Hnew Ht1s).
    + intros m Hm. destruct (Hsub' m Hm) as [Hm' | [-> | Hm']].
      * exact (Hsub m Hm').
      * left. destruct t as [l s]. exact (In_keys _ _ _ Hin).
      * right. exact Hm'.
  - exists g. split; [exact Hrun |]. exact HP.
Qed.

End MatchingFacts.

Section MatchingTermination.
Context {N : Type} `{Hashable N} {L : Type} `{Hashable L}.

Lemma weighted_neighbours_ok (g : Graph L) (row : dict L edge_data) :
  (forall m d, In (m, d) row -> d <> None) ->
  comprehension row (fun _ => Ok true)
    (fun nbr => w <- weight_of (snd nbr) ;; Ok (fst nbr, w))
  = Ok (map (fun nbr => (fst nbr, match snd nbr with Some w => w | None => 0 end))
            row).
Proof.
  intro Hw.
  rewrite (comprehension_ok row (fun _ => Ok true) _ (fun _ => true)
             (fun nbr => (fst nbr, match snd nbr with Some w => w | None => 0 end))).
  - rewrite filter_all; [reflexivity | reflexivity].
  - reflexivity.
  - intros [m d] Hin _. specialize (Hw m d Hin). simpl.
    destruct d; [reflexivity | congruence].
Qed.

Lemma build_max_overlap_digraph_ok (g : Graph L) :
  dense g ->
  exists D,
    build_max_overlap_digraph g = Ok D
    /\ (forall x h t, get x (succ D) = Some (h :: t) -> get h (adj g) <> None)
    /\ (forall x, In x (nodes g) -> exists h t, get x (succ D) = Some (h :: t)).
Proof.
  intro Hg. unfold build_max_overlap_digraph.
  destruct (for_each_invariant
              (fun pre D =>
                 (forall x h t, get x (succ D) = Some (h :: t) ->
                    get h (adj g) <> None)
                 /\ (forall x, In x pre -> exists h t, get x (succ D) = Some (h :: t)))
              (nodes g)
              (fun d v =>
                 nbrs <- neighbors v g ;;
                 wts <- comprehension nbrs (fun _ => Ok true)
                          (fun nbr => w <- weight_of (snd nbr) ;; Ok (fst nbr, w)) ;;
                 best <- max_by snd wts ;;
                 Ok (di_add_edge v (fst best) d))
              empty_digraph) as [D [Hrun HP]].
  - split; [intros x h t Hx; discriminate Hx | intros x []].
  - intros pre v D [Hheads Hpre] Hv.
    destruct (keys_get v (adj g) Hv) as [row Hrow].
    destruct (Hg v row Hrow) as [Hne Hitems].
    unfold neighbors, getitem. rewrite Hrow. cbn [bind].
    rewrite (weighted_neighbours_ok g row (fun m d Hin => proj1 (Hitems m d Hin))).
    cbn [bind].
    match goal with |- context [max_by snd ?w] => set (wts := w) end.
    assert (Hwts : wts <> []).
    { unfold wts. destruct row; [congruence | discriminate]. }
    destruct (max_by_ok snd wts Hwts) as [best Hbest]. rewrite Hbest. cbn [bind].
    assert (Hnode : get (fst best) (adj g) <> None).
    { apply max_by_In in Hbest. unfold wts in Hbest. apply in_map_iff in Hbest.
      destruct Hbest as [[m d] [<- Hin]]. simpl.
      exact (proj2 (Hitems m d Hin)). }
    eexists. split; [reflexivity |]. split.
    + intros x h t Hx. apply di_add_edge_head in Hx.
      destruct Hx as [[_ ->] | [t' Hx]]; [exact Hnode | exact (Hheads x h t' Hx)].
    + intros x Hx. apply in_app_or in Hx. destruct Hx as [Hx | [<- | []]].
      * destruct (Hpre x Hx) as [h [t Hg']].
        destruct (di_add_edge_keeps x v (fst best) D h t Hg') as [t' Ht'].
        exists h, t'. exact Ht'.
      * apply di_add_edge_source.
  - exists D. split; [exact Hrun |]. exact HP.
Qed.

Lemma best_matched_label_ok (g : Graph L) (D : DiGraph L) (l_t : L) :
  (forall x h t, get x (succ D) = Some (h :: t) -> get h (adj g) <> None) ->
  (forall x, In x (nodes g) -> exists h t, get x (succ D) = Some (h :: t)) ->
  get l_t (adj g) <> None ->
  exists m back,
    get l_t (succ D) = Some m
    /\ best_matched_label D l_t
       = Ok (if py_eqb back l_t then hd l_t m else l_t)
    /\ get (hd l_t m) (adj g) <> None.
Proof.
  intros Hheads Hall Hl. unfold best_matched_label, successors.
  destruct (Hall l_t (proj1 (get_keys l_t (adj g)) Hl)) as [m [rest Hm]].
  rewrite Hm. cbn [bind first].
  assert (Hmg := Hheads l_t m rest Hm).
  destruct (Hall m (proj1 (get_keys m (adj g)) Hmg)) as [back [rest' Hback]].
  rewrite Hback. cbn [bind first].
  exists (m :: rest), back. split; [reflexivity |]. split; [reflexivity |].
  exact Hmg.
Qed.

(** C9: with a non-empty [prev_label_dict] the overlap graph is built, no
    vertex of it is isolated, every label of [label_dict] has a successor
    in the max-overlap digraph, and [match_labels] returns a mapping: the
    case of a label without out-neighbour cannot arise. *)
Theorem match_labels_returns (label_dict prev_label_dict : dict N L) :
  prev_label_dict <> [] ->
  exists overlap_graph max_overlap_digraph matched_label_dict,
    build_overlap_graph (nodesets_per_label label_dict)
      (nodesets_per_label prev_label_dict) = Ok overlap_graph
    /\ (forall v nbrs, neighbors v overlap_graph = Ok nbrs -> nbrs <> [])
    /\ build_max_overlap_digraph overlap_graph = Ok max_overlap_digraph
    /\ (forall l_t, In l_t (keys (nodesets_per_label label_dict)) ->
          exists m rest, successors l_t max_overlap_digraph = Ok (m :: rest))
    /\ match_labels label_dict prev_label_dict = Ok matched_label_dict.
Proof.
  intro Hprev.
  destruct (build_overlap_graph_ok (nodesets_per_label label_dict)
              (nodesets_per_label prev_label_dict)
              (nodesets_nonempty label_dict)
              (nodesets_not_nil prev_label_dict Hprev))
    as [g [Hg [Hdense [Hts _]]]].
  destruct (build_max_overlap_digraph_ok g Hdense) as [D [HD [Hheads Hall]]].
  assert (Hloop : exists out,
             for_each (keys (nodesets_per_label label_dict))
               (fun matched_label_dict l_t =>
                  best <- best_matched_label D l_t ;;
                  let nodeset :=
                    get_default l_t (nodesets_per_label label_dict) [] in
                  Ok (fold_left (fun m n => setitem n best m) nodeset
                        matched_label_dict))
               [] = Ok out).
  { destruct (for_each_invariant (fun _ (_ : dict N L) => True)
                (keys (nodesets_per_label label_dict))
                (fun matched_label_dict l_t =>
                   best <- best_matched_label D l_t ;;
                   let nodeset :=
                     get_default l_t (nodesets_per_label label_dict) [] in
                   Ok (fold_left (fun m n => setitem n best m) nodeset
                         matched_label_dict))
                []) as [out [Hout _]].
    - exact I.
    - intros pre l_t acc _ Hin.
      destruct (best_matched_label_ok g D l_t Hheads Hall (Hts l_t Hin))
        as [m [back [_ [Hbest _]]]].
      rewrite Hbest. cbn [bind]. eexists. split; [reflexivity | exact I].
    - exists out. exact Hout. }
  destruct Hloop as [out Hout].
  exists g, D, out.
  split; [exact Hg |]. split.
  - intros v nbrs Hv. unfold neighbors, getitem in Hv.
    destruct (get v (adj g)) as [row |] eqn:Erow; [| discriminate Hv].
    injection Hv as <-. exact (proj1 (Hdense v row Erow)).
  - split; [exact HD |]. split.
    + intros l_t Hl.
      destruct (Hall l_t (proj1 (get_keys l_t (adj g)) (Hts l_t Hl))) as [m [rest Hm]].
      exists m, rest. unfold successors. rewrite Hm. reflexivity.
    + unfold match_labels. destruct prev_label_dict as [| p prev]; [congruence |].
      cbv zeta. rewrite Hg. cbn [bind]. rewrite HD. cbn [bind]. exact Hout.
Qed.

End MatchingTermination.

Lemma match_labels_returns_witness :
  exists overlap_graph max_overlap_digraph matched_label_dict,
    build_overlap_graph (nodesets_per_label Samples.labels_t)
      (nodesets_per_label Samples.labels_t_minus_1) = Ok overlap_graph
    /\ (forall v nbrs, neighbors v overlap_graph = Ok nbrs -> nbrs <> [])
    /\ build_max_overlap_digraph overlap_graph = Ok max_overlap_digraph
    /\ (forall l_t, In l_t (keys (nodesets_per_label Samples.labels_t)) ->
          exists m rest, successors l_t max_overlap_digraph = Ok (m :: rest))
    /\ match_labels Samples.labels_t Samples.labels_t_minus_1
       = Ok matched_label_dict.
Proof.
  apply (match_labels_returns Samples.labels_t Samples.labels_t_minus_1).
  discriminate.
Defined.

(** ** Where the code departs from its documentation *)

(** C4 fails on the code: [graph_distance] compares the edges as the
    ordered tuples that [edges_iter] reports.  [g_1_9] and [g_9_1] have
    the same two nodes and the same undirected edge, reported as (1, 9)
    by the one and as (9, 1) by the other.  With (u, v) identified with
    (v, u) their Jaccard distance is 0; the code returns 1. *)
Theorem graph_distance_depends_on_orientation :
  edges Samples.g_1_9 = [(1%Z, 9%Z)]
  /\ edges Samples.g_9_1 = [(9%Z, 1%Z)]
  /\ Spec.same_edge (1%Z, 9%Z) (9%Z, 1%Z)
  /\ (forall n, In n (nodes Samples.g_1_9) <-> In n (nodes Samples.g_9_1))
  /\ Spec.jaccard_distance (edges Samples.g_1_9) (edges Samples.g_9_1) = 0
  /\ graph_distance Samples.g_1_9 Samples.g_9_1 false = Ok 1
  /\ graph_distance Samples.g_1_9 Samples.g_1_9 false = Ok 0.
Proof.
  split; [reflexivity |]. split; [reflexivity |].
  split; [right; reflexivity |]. split.
  - intro n. vm_compute. tauto.
  - repeat split; vm_compute; reflexivity.
Qed.

(** C5 fails on the code for the same reason: the dot product of line 62
    runs over the tuples that both graphs report.  [w_1_9] and [w_9_1]
    hold the same undirected edge with weight 1, reported as (1, 9) by the
    one and as (9, 1) by the other.  Over the edges present in both graphs
    the dot product is 1, equal to both norms, and the distance is 0; the
    code finds no common tuple, its dot product is 0, and it returns 1.
    Against itself, where the tuples agree, the code returns 0. *)
Theorem graph_distance_weighted_depends_on_orientation :
  edges Samples.w_1_9 = [(1%Z, 9%Z)]
  /\ edges Samples.w_9_1 = [(9%Z, 1%Z)]
  /\ Spec.same_edge (1%Z, 9%Z) (9%Z, 1%Z)
  /\ get_edge_attributes Samples.w_1_9 = [((1%Z, 9%Z), 1)]
  /\ get_edge_attributes Samples.w_9_1 = [((9%Z, 1%Z), 1)]
  /\ Spec.dot_product Samples.w_1_9 Samples.w_9_1 = 1
  /\ Spec.norm Samples.w_1_9 = 1
  /\ Spec.norm Samples.w_9_1 = 1
  /\ Spec.tanimoto_distance Samples.w_1_9 Samples.w_9_1 = 0
  /\ graph_distance Samples.w_1_9 Samples.w_9_1 true = Ok 1
  /\ graph_distance Samples.w_1_9 Samples.w_1_9 true = Ok 0.
Proof.
  split; [reflexivity |]. split; [reflexivity |].
  split; [right; reflexivity |].
  repeat split; vm_compute; reflexivity.
Qed.

(** C2 fails on the code for the same reason: the guard of line 146 tests
    the tuples that both graphs report.  [G] and [Zgraph] hold the same
    undirected edge with weight 1, its endpoints labelled ["a"] and
    ["b"].  The intersection of the edge sets is not empty, so the claim
    gives the weight of the estranged edge over the total weight, 1; the
    code finds no common tuple and returns 0.  With the edge reported the
    same way by both graphs the code returns 1. *)
Theorem Estrangement_depends_on_orientation :
  edges Samples.w_1_9 = [(1%Z, 9%Z)]
  /\ edges Samples.w_9_1 = [(9%Z, 1%Z)]
  /\ Spec.same_edge (1%Z, 9%Z) (9%Z, 1%Z)
  /\ Spec.estranged_weight Samples.labels_1_9 Samples.w_9_1 = 1
  /\ Spec.total_weight Samples.w_1_9 = 1
  /\ Spec.estrangement Samples.w_1_9 Samples.labels_1_9 Samples.w_9_1 = 1
  /\ Estrangement Samples.w_1_9 Samples.labels_1_9 Samples.w_9_1 = Ok 0
  /\ Estrangement Samples.w_1_9 Samples.labels_1_9 Samples.w_1_9 = Ok 1.
Proof.
  split; [reflexivity |]. split; [reflexivity |].
  split; [right; reflexivity |].
  repeat split; vm_compute; reflexivity.
Qed.

(** C1 fails on the code: the labels of both dicts are vertices of one
    graph, so a label used at t and at t-1 is a single vertex.  In the
    sample the only label at t-1 is ["b"]; its overlap is 2/3 with the
    group ["a"] and 1/3 with the group ["b"], so the group ["b"] has no
    reciprocal match and keeps its label in the bipartite matching; the
    code renames it to ["a"], which is not a label at t-1.  When the two
    dicts share no label, as with [labels_x_y], the code and the bipartite
    matching agree. *)
Theorem match_labels_shared_label :
  match_labels Samples.labels_t Samples.labels_t_minus_1
  = Ok [(1%Z, "b"%string); (2%Z, "b"%string); (3%Z, "a"%string)]
  /\ Spec.match_labels Samples.labels_t Samples.labels_t_minus_1
     = [(1%Z, "b"%string); (2%Z, "b"%string); (3%Z, "b"%string)]
  /\ Spec.ancestor Samples.labels_t Samples.labels_t_minus_1 "b"%string
     = Some "b"%string
  /\ Spec.descendant Samples.labels_t Samples.labels_t_minus_1 "b"%string
     = Some "a"%string
  /\ jaccard_overlap [1%Z; 2%Z; 3%Z] [1%Z; 2%Z] = Ok (2 # 3)
  /\ jaccard_overlap [1%Z; 2%Z; 3%Z] [3%Z] = Ok (1 # 3)
  /\ match_labels Samples.labels_t Samples.labels_x_y
     = Ok (Spec.match_labels Samples.labels_t Samples.labels_x_y).
Proof.
  repeat split; vm_compute; reflexivity.
Qed.

(** C3 fails on the code, by the same conflation of the two sets of
    labels: node 3, whose label is ["b"], is mapped to ["a"], which is
    neither its original label nor a label of [prev_label_dict]. *)
Theorem match_labels_output_not_an_ancestor :
  exists matched_label_dict,
    match_labels Samples.labels_t Samples.labels_t_minus_1 = Ok matched_label_dict
    /\ get 3%Z Samples.labels_t = Some "b"%string
    /\ get 3%Z matched_label_dict = Some "a"%string
    /\ ~ In "a"%string (map snd Samples.labels_t_minus_1).
Proof.
  eexists. split; [vm_compute; reflexivity |].
  split; [reflexivity |]. split; [reflexivity |].
  vm_compute. intros [E | [E | [E | []]]]; discriminate E.
Qed.

(** ** The first snapshot *)

Section FirstSnapshot.
Context {N : Type} `{Hashable N} {L : Type} `{Hashable L}.

(** C7: with an empty [prev_label_dict], [match_labels] returns
    [label_dict] itself, unchanged. *)
Theorem match_labels_empty_prev (label_dict : dict N L) :
  match_labels label_dict [] = Ok label_dict.
Proof. reflexivity. Qed.

End FirstSnapshot.

(** ** The confidence interval *)

(** *** Sums of doubles

    The sum of two doubles is a negative zero only when both are, so a
    sum that starts from 0 never is one, and adding it to 0 changes
    nothing.  The rounding functions are those of the standard library's
    specification of binary64 ([SpecFloat]). *)

Section Rounding.
Variables prc emx : Z.
Hypothesis Hprc : (0 < prc)%Z.

Lemma digits2_pos_lower (p : positive) :
  (2 ^ (Z.pos (digits2_pos p) - 1) <= Z.pos p)%Z.
Proof.
  induction p as [p IH | p IH |]; simpl digits2_pos.
  - rewrite Pos2Z.inj_succ.
    replace (Z.succ (Z.pos (digits2_pos p)) - 1)%Z
      with (Z.succ (Z.pos (digits2_pos p) - 1))%Z by lia.
    rewrite Z.pow_succ_r by lia. lia.
  - rewrite Pos2Z.inj_succ.
    replace (Z.succ (Z.pos (digits2_pos p)) - 1)%Z
      with (Z.succ (Z.pos (digits2_pos p) - 1))%Z by lia.
    rewrite Z.pow_succ_r by lia. lia.
  - simpl. lia.
Qed.

Lemma shr_1_m (mrs : shr_record) :
  (0 <= shr_m mrs)%Z -> shr_m (shr_1 mrs) = (shr_m mrs / 2)%Z.
Proof.
  destruct mrs as [m r s]. simpl. intro Hm.
  destruct m as [| [p | p |] | p]; simpl.
  - reflexivity.
  - apply Z.div_unique with 1%Z; lia.
  - apply Z.div_unique with 0%Z; lia.
  - reflexivity.
  - lia.
Qed.

Lemma iter_shr_1_m (p : positive) (mrs : shr_record) :
  (0 <= shr_m mrs)%Z ->
  shr_m (SpecFloat.iter_pos shr_1 p mrs) = (shr_m mrs / 2 ^ Z.pos p)%Z.
Proof.
  revert mrs.
  induction p as [p IH | p IH |]; intros mrs Hm; simpl SpecFloat.iter_pos.
  - assert (H1 : (0 <= shr_m (shr_1 mrs))%Z).
    { rewrite shr_1_m by exact Hm. apply Z.div_pos; lia. }
    assert (H2 : (0 <= shr_m (SpecFloat.iter_pos shr_1 p (shr_1 mrs)))%Z).
    { rewrite IH by exact H1.
      apply Z.div_pos; [exact H1 | apply Z.pow_pos_nonneg; lia]. }
    rewrite IH by exact H2. rewrite IH by exact H1. rewrite shr_1_m by exact Hm.
    assert (Hp : (0 < 2 ^ Z.pos p)%Z) by (apply Z.pow_pos_nonneg; lia).
    assert (E : (2 ^ Z.pos p~1 = 2 * (2 ^ Z.pos p * 2 ^ Z.pos p))%Z).
    { replace (Z.pos p~1) with (1 + (Z.pos p + Z.pos p))%Z by lia.
      rewrite !Z.pow_add_r by lia. reflexivity. }
    rewrite E, !Z.div_div by lia. reflexivity.
  - assert (H2 : (0 <= shr_m (SpecFloat.iter_pos shr_1 p mrs))%Z).
    { rewrite IH by exact Hm.
      apply Z.div_pos; [exact Hm | apply Z.pow_pos_nonneg; lia]. }
    rewrite IH by exact H2. rewrite IH by exact Hm.
    assert (Hp : (0 < 2 ^ Z.pos p)%Z) by (apply Z.pow_pos_nonneg; lia).
    assert (E : (2 ^ Z.pos p~0 = 2 ^ Z.pos p * 2 ^ Z.pos p)%Z).
    { replace (Z.pos p~0) with (Z.pos p + Z.pos p)%Z by lia.
      rewrite !Z.pow_add_r by lia. reflexivity. }
    rewrite E, !Z.div_div by lia. reflexivity.
  - rewrite shr_1_m by exact Hm. reflexivity.
Qed.

(** Rounding a positive mantissa whose exponent is not below the least
    one leaves a positive mantissa: nothing underflows to zero. *)
Lemma shr_fexp_positive (p : positive) (e : Z) :
  (SpecFloat.emin prc emx <= e)%Z ->
  (0 < shr_m (fst (shr_fexp prc emx (Z.pos p) e loc_Exact)))%Z
  /\ (SpecFloat.emin prc emx <= snd (shr_fexp prc emx (Z.pos p) e loc_Exact))%Z.
Proof.
  intro He. unfold shr_fexp, shr, fexp. simpl Zdigits2. simpl shr_record_of_loc.
  set (d := Z.pos (digits2_pos p)).
  destruct (Z.max (d + e - prc) (SpecFloat.emin prc emx) - e)%Z as [| n | n] eqn:En;
    simpl; try (split; lia).
  assert (Hn : (Z.pos n = d - prc)%Z) by lia.
  split; [| lia].
  rewrite iter_shr_1_m by (simpl; lia). simpl shr_m.
  apply Z.div_str_pos. split; [apply Z.pow_pos_nonneg; lia |].
  apply Z.le_trans with (2 ^ (d - 1))%Z; [| apply digits2_pos_lower].
  apply Z.pow_le_mono_r; lia.
Qed.

Lemma round_nearest_even_positive (m : Z) (l : location) :
  (0 < m)%Z -> (0 < round_nearest_even m l)%Z.
Proof.
  intro Hm. unfold round_nearest_even.
  destruct l as [| [| |]]; try lia. destruct (Z.even m); lia.
Qed.

Lemma binary_round_aux_not_zero (sx : bool) (p : positive) (e : Z) :
  (SpecFloat.emin prc emx <= e)%Z ->
  forall s, binary_round_aux prc emx sx (Z.pos p) e loc_Exact <> S754_zero s.
Proof.
  intros He s. unfold binary_round_aux.
  destruct (shr_fexp_positive p e He) as [Hm1 He1].
  destruct (shr_fexp prc emx (Z.pos p) e loc_Exact) as [mrs' e'].
  simpl in Hm1, He1.
  assert (Hr := round_nearest_even_positive
                  (shr_m mrs') (loc_of_shr_record mrs') Hm1).
  destruct (round_nearest_even (shr_m mrs') (loc_of_shr_record mrs')) as [| q | q];
    try lia.
  destruct (shr_fexp_positive q e' He1) as [Hm2 _].
  destruct (shr_fexp prc emx (Z.pos q) e' loc_Exact) as [mrs'' e''].
  simpl in Hm2.
  destruct (shr_m mrs'') as [| m | m]; try lia.
  destruct (e'' <=? emx - prc)%Z; discriminate.
Qed.

Lemma binary_round_not_zero (sx : bool) (p : positive) (e : Z) :
  (SpecFloat.emin prc emx <= e)%Z ->
  forall s, binary_round prc emx sx p e <> S754_zero s.
Proof.
  intros He s. unfold binary_round, shl_align, fexp.
  destruct (Z.max (Z.pos (digits2_pos p) + e - prc) (SpecFloat.emin prc emx) - e)%Z
    eqn:En; apply binary_round_aux_not_zero; lia.
Qed.

Lemma valid_exponent (s : bool) (m : positive) (e : Z) :
  SpecFloat.valid_binary prc emx (S754_finite s m e) = true ->
  (SpecFloat.emin prc emx <= e)%Z.
Proof.
  simpl. unfold bounded, canonical_mantissa, fexp. intro Hv.
  apply andb_true_iff in Hv. destruct Hv as [Hc _].
  apply Z.eqb_eq in Hc. lia.
Qed.

Lemma SFadd_neg_zero (x y : spec_float) :
  SpecFloat.valid_binary prc emx x = true ->
  SpecFloat.valid_binary prc emx y = true ->
  SFadd prc emx x y = S754_zero true ->
  x = S754_zero true /\ y = S754_zero true.
Proof.
  intros Hx Hy. unfold SFadd.
  destruct x as [sx | sx | | sx mx ex]; destruct y as [sy | sy | | sy my ey];
    try discriminate;
    try (destruct sx; destruct sy; first [discriminate | intro; split; reflexivity]).
  unfold binary_normalize.
  assert (He : (SpecFloat.emin prc emx <= Z.min ex ey)%Z).
  { apply valid_exponent in Hx. apply valid_exponent in Hy. lia. }
  destruct (cond_Zopp sx (Z.pos (fst (shl_align mx ex (Z.min ex ey))))
            + cond_Zopp sy (Z.pos (fst (shl_align my ey (Z.min ex ey)))))%Z
    as [| m | m]; [discriminate | |];
    intro Hz; exfalso; exact (binary_round_not_zero _ m _ He true Hz).
Qed.

End Rounding.

Lemma add_neg_zero (x y : float) :
  Prim2SF (x + y) = S754_zero true ->
  Prim2SF x = S754_zero true /\ Prim2SF y = S754_zero true.
Proof.
  rewrite add_spec.
  apply (SFadd_neg_zero prec emax); [reflexivity | |]; apply Prim2SF_valid.
Qed.

Lemma add_zero_l (x : float) :
  Prim2SF x <> S754_zero true -> (0 + x)%float = x.
Proof.
  intro Hx. apply Prim2SF_inj. rewrite add_spec.
  change (Prim2SF 0) with (S754_zero false).
  destruct (Prim2SF x) as [s | s | | s m e]; try reflexivity.
  destruct s; [congruence | reflexivity].
Qed.

Lemma fold_add_not_neg_zero (xs : list float) (acc : float) :
  Prim2SF acc <> S754_zero true ->
  Prim2SF (fold_left PrimFloat.add xs acc) <> S754_zero true.
Proof.
  revert acc. induction xs as [| x xs IH]; intros acc Hacc; simpl.
  - exact Hacc.
  - apply IH. intro Hz. apply add_neg_zero in Hz. tauto.
Qed.

(** *** numpy's sum *)

Lemma pairwise_sum_small (fuel : nat) (xs : list float) :
  (List.length xs < 8)%nat -> Np.pairwise_sum fuel xs = Spec.total xs.
Proof.
  intro Hn. apply Nat.ltb_lt in Hn.
  destruct fuel; cbn [Np.pairwise_sum]; rewrite Hn; reflexivity.
Qed.

(** Below 8 elements numpy adds the terms one after the other. *)
Lemma add_reduce_small (xs : list float) :
  (List.length xs < 8)%nat -> Np.add_reduce xs = Spec.total xs.
Proof.
  intro Hn. unfold Np.add_reduce. rewrite (pairwise_sum_small _ xs Hn).
  apply add_zero_l. apply fold_add_not_neg_zero. discriminate.
Qed.

(** The length of the array is fuel enough for the recursion on halves:
    more fuel changes nothing. *)
Lemma pairwise_sum_fuel (fuel fuel' : nat) (xs : list float) :
  (List.length xs <= fuel)%nat -> (List.length xs <= fuel')%nat ->
  Np.pairwise_sum fuel xs = Np.pairwise_sum fuel' xs.
Proof.
  revert fuel' xs. induction fuel as [| fuel IH]; intros fuel' xs Hf Hf'.
  - destruct xs; [| simpl in Hf; lia]. destruct fuel'; reflexivity.
  - destruct fuel' as [| fuel'].
    + destruct xs; [reflexivity | simpl in Hf'; lia].
    + cbn [Np.pairwise_sum].
      destruct (List.length xs <? 8)%nat eqn:E8; [reflexivity |].
      destruct (List.length xs <=? 128)%nat eqn:E128; [reflexivity |].
      apply Nat.ltb_ge in E8. apply Nat.leb_gt in E128.
      set (n := List.length xs) in *.
      assert (Hdiv : (2 * (n / 2) <= n)%nat) by (apply Nat.Div0.mul_div_le).
      assert (Hdiv' : (n < 2 * (n / 2) + 2)%nat).
      { pose proof (Nat.div_mod_eq n 2) as Hdm.
        pose proof (Nat.mod_upper_bound n 2 ltac:(discriminate)). lia. }
      assert (Hmod : ((n / 2) mod 8 < 8)%nat).
      { apply Nat.mod_upper_bound. discriminate. }
      assert (Hmod' : ((n / 2) mod 8 <= n / 2)%nat) by (apply Nat.Div0.mod_le).
      f_equal; apply IH.
      * rewrite length_firstn. fold n. lia.
      * rewrite length_firstn. fold n. lia.
      * rewrite length_skipn. fold n. lia.
      * rewrite length_skipn. fold n. lia.
Qed.

(** *** The formula *)

Lemma std_with_add_reduce (xs : list float) :
  Np.std xs = Spec.population_std_with Np.add_reduce xs.
Proof.
  unfold Np.std, Np.var, Spec.population_std_with.
  rewrite Nat.sub_0_r, Nat.max_0_r, map_map. reflexivity.
Qed.

Lemma std_is_population_std (xs : list float) :
  (List.length xs < 8)%nat -> Np.std xs = Spec.population_std xs.
Proof.
  intro Hn. rewrite std_with_add_reduce.
  unfold Spec.population_std, Spec.population_std_with.
  rewrite (add_reduce_small xs Hn).
  rewrite add_reduce_small by (rewrite length_map; exact Hn).
  reflexivity.
Qed.




(** ** The unweighted distance on the reported tuples *)

Lemma ratio_bounds (u i : Z) :
  (0 < u)%Z -> (0 <= i <= u)%Z ->
  0 <= (inject_Z u - inject_Z i) / inject_Z u
  /\ (inject_Z u - inject_Z i) / inject_Z u <= 1
  /\ ((inject_Z u - inject_Z i) / inject_Z u == 1 <-> i = 0%Z).
Proof.
  intros Hu Hi.
  assert (Hpos : 0 < inject_Z u).
  { replace 0 with (inject_Z 0) by reflexivity. rewrite <- Zlt_Qlt. exact Hu. }
  assert (Hdiff : inject_Z u - inject_Z i == inject_Z (u - i)).
  { unfold Zminus. rewrite inject_Z_plus, inject_Z_opp. reflexivity. }
  split; [| split].
  - apply Qle_shift_div_l; [exact Hpos |]. rewrite Hdiff, Qmult_0_l.
    replace 0 with (inject_Z 0) by reflexivity. rewrite <- Zle_Qle. lia.
  - apply Qle_shift_div_r; [exact Hpos |]. rewrite Hdiff, Qmult_1_l.
    rewrite <- Zle_Qle. lia.
  - split.
    + intro E.
      assert (E' : inject_Z (u - i) == inject_Z u).
      { rewrite <- Hdiff.
        rewrite <- (Qmult_div_r (inject_Z u - inject_Z i) (inject_Z u)).
        - rewrite E. ring.
        - intro Hz. rewrite Hz in Hpos. exact (Qlt_irrefl 0 Hpos). }
      apply (proj1 (inject_Z_injective _ _)) in E'. lia.
    + intros ->. unfold Qminus. change (inject_Z 0) with 0.
      field. intro Hz. rewrite Hz in Hpos. exact (Qlt_irrefl 0 Hpos).
Qed.

Section UnweightedDistance.
Context {V : Type} `{Hashable V}.

(** X1: what [graph_distance(g0, g1, False)] computes when some edge
    exists: the Jaccard distance of the two sets of reported tuples.  It
    lies between 0 and 1 and is 1 exactly when no tuple is reported by both
    graphs. *)
Lemma graph_distance_on_reported_tuples (g0 g1 : Graph V) :
  edges g0 <> [] \/ edges g1 <> [] ->
  exists q,
    graph_distance g0 g1 false = Ok q
    /\ q == (len (set_or (set_of (edges g1)) (set_of (edges g0)))
             - len (set_and (set_of (edges g1)) (set_of (edges g0))))
            / len (set_or (set_of (edges g1)) (set_of (edges g0)))
    /\ 0 <= q <= 1
    /\ (q = 1 <-> forall e, In e (edges g1) -> ~ In e (edges g0)).
Proof.
  intro Hedge. unfold graph_distance. cbn [negb].
  set (A := set_of (edges g1)). set (B := set_of (edges g0)).
  assert (HU : set_or A B <> []).
  { intro E. apply set_or_nil in E. destruct E as [EA EB].
    apply (proj1 (set_of_nil _)) in EA. apply (proj1 (set_of_nil _)) in EB.
    tauto. }
  assert (Hle : (List.length (set_and A B) <= List.length (set_or A B))%nat).
  { unfold set_and, set_or. rewrite length_app.
    pose proof (filter_length_le (fun x => mem x B) A). lia. }
  assert (Hu : (0 < Z.of_nat (List.length (set_or A B)))%Z).
  { destruct (set_or A B); [congruence | simpl; lia]. }
  destruct (ratio_bounds (Z.of_nat (List.length (set_or A B)))
              (Z.of_nat (List.length (set_and A B))) Hu)
    as [H0 [H1 Hone]]; [lia |].
  unfold truediv. rewrite (len_not_zero (set_or A B) HU).
  eexists. split; [reflexivity |].
  split; [apply Qred_correct |].
  split; [rewrite Qred_correct; split; [exact H0 | exact H1] |].
  split.
  - intros E e H1e H0e.
    assert (Hq : (len (set_or A B) - len (set_and A B)) / len (set_or A B) == 1).
    { rewrite <- (Qred_correct (_ / _)). rewrite E. reflexivity. }
    apply Hone in Hq.
    assert (Hnil : set_and A B = []).
    { destruct (set_and A B); [reflexivity | simpl in Hq; lia]. }
    apply (proj1 (set_and_nil A B) Hnil e); apply In_set_of; assumption.
  - intro Hdisj.
    assert (Hnil : set_and A B = []).
    { apply set_and_nil. intros e HA HB.
      exact (Hdisj e (proj1 (In_set_of e _) HA) (proj1 (In_set_of e _) HB)). }
    assert (Hq : (len (set_or A B) - len (set_and A B)) / len (set_or A B) == 1).
    { apply Hone. rewrite Hnil. reflexivity. }
    apply Qred_complete in Hq. exact Hq.
Qed.

End UnweightedDistance.

(** ** What label matching preserves *)

Section Nodesets.
Context {N : Type} `{Hashable N} {L : Type} `{Hashable L}.

Lemma nodesets_fold_member (d : dict N L) (acc : dict L (list N)) (n : N) (l : L) :
  In n (get_default l (fold_left nodesets_step d acc) [])
  <-> In n (get_default l acc []) \/ In (n, l) d.
Proof.
  revert acc. induction d as [| [n0 l0] d IH]; intro acc; simpl.
  - tauto.
  - rewrite IH. unfold nodesets_step at 1, get_default at 1. simpl.
    rewrite get_setitem. destruct (py_eqb l l0) eqn:E.
    + apply py_eqb_eq in E. subst l0. rewrite In_set_add. split.
      * intros [[-> | Hacc] | Hd]; auto.
      * intros [Hacc | [E | Hd]]; auto. injection E as -> . auto.
    + apply py_eqb_false in E. fold (get_default l acc []). split.
      * intros [Hacc | Hd]; auto.
      * intros [Hacc | [E' | Hd]]; auto. injection E' as _ E'. congruence.
Qed.

Lemma nodesets_member (d : dict N L) (n : N) (l : L) :
  In n (get_default l (nodesets_per_label d) []) <-> In (n, l) d.
Proof.
  unfold nodesets_per_label.
  rewrite nodesets_fold_member. simpl. tauto.
Qed.

Lemma nodesets_fold_keys (d : dict N L) (acc : dict L (list N)) (l : L) :
  In l (keys (fold_left nodesets_step d acc))
  <-> In l (keys acc) \/ exists n, In (n, l) d.
Proof.
  revert acc. induction d as [| [n0 l0] d IH]; intro acc; simpl.
  - split; [auto | intros [Hk | [n []]]; exact Hk].
  - rewrite IH. unfold nodesets_step at 1. simpl. rewrite keys_setitem. split.
    + intros [[-> | Hk] | [n Hn]]; eauto.
    + intros [Hk | [n [E | Hn]]]; eauto. injection E as _ ->. auto.
Qed.

Lemma nodesets_keys (d : dict N L) (l : L) :
  In l (keys (nodesets_per_label d)) <-> exists n, In (n, l) d.
Proof.
  unfold nodesets_per_label.
  rewrite nodesets_fold_keys. simpl. tauto.
Qed.

Lemma label_in_values (d : dict N L) (l : L) :
  (exists n, In (n, l) d) <-> In l (map snd d).
Proof.
  rewrite in_map_iff. split.
  - intros [n Hn]. exists (n, l). split; [reflexivity | exact Hn].
  - intros [[n l'] [E Hn]]. simpl in E. subst l'. exists n. exact Hn.
Qed.

Lemma one_label_per_node (d : dict N L) (n : N) (l l' : L) :
  NoDup (keys d) -> In (n, l) d -> In (n, l') d -> l = l'.
Proof.
  intros Hnd Hl Hl'.
  apply (In_get n l d Hnd) in Hl. apply (In_get n l' d Hnd) in Hl'. congruence.
Qed.

Lemma get_fold_setitem (ns : list N) (x : L) (m : dict N L) (n : N) :
  get n (fold_left (fun m n => setitem n x m) ns m)
  = if mem n ns then Some x else get n m.
Proof.
  revert m. induction ns as [| a ns IH]; intro m; simpl.
  - reflexivity.
  - rewrite IH, get_setitem.
    destruct (py_eqb n a); destruct (mem n ns); reflexivity.
Qed.

Lemma NoDup_keys_fold_setitem (ns : list N) (x : L) (m : dict N L) :
  NoDup (keys m) -> NoDup (keys (fold_left (fun m n => setitem n x m) ns m)).
Proof.
  intro Hm.
  apply (fold_left_invariant (fun m : dict N L => NoDup (keys m))); [exact Hm |].
  intros acc n Hacc. apply NoDup_keys_setitem. exact Hacc.
Qed.

End Nodesets.

Section Renaming.
Context {L : Type} `{Hashable L}.

Lemma best_matched_label_inv (D : DiGraph L) (l x : L) :
  best_matched_label D l = Ok x ->
  exists m back,
    first_successor D l = Some m
    /\ first_successor D m = Some back
    /\ x = if py_eqb back l then m else l.
Proof.
  unfold best_matched_label, successors, first_successor.
  destruct (get l (succ D)) as [[| m r] |]; cbn [bind first];
    try (intro Hx; discriminate Hx).
  destruct (get m (succ D)) as [[| back r'] |] eqn:Em; cbn [bind first];
    try (intro Hx; discriminate Hx).
  intro Hx. injection Hx as <-. exists m, back.
  split; [reflexivity |]. rewrite Em. split; reflexivity.
Qed.

(** The renaming of the labels is injective: two groups never receive the
    same label. *)
Lemma best_matched_label_injective (D : DiGraph L) (l1 l2 x : L) :
  best_matched_label D l1 = Ok x -> best_matched_label D l2 = Ok x -> l1 = l2.
Proof.
  intros H1 H2.
  apply best_matched_label_inv in H1. destruct H1 as [m1 [b1 [Hm1 [Hb1 Hx1]]]].
  apply best_matched_label_inv in H2. destruct H2 as [m2 [b2 [Hm2 [Hb2 Hx2]]]].
  destruct (py_eqb b1 l1) eqn:E1; destruct (py_eqb b2 l2) eqn:E2.
  - apply py_eqb_eq in E1. apply py_eqb_eq in E2. subst. congruence.
  - apply py_eqb_eq in E1. apply py_eqb_false in E2. subst.
    exfalso. apply E2. congruence.
  - apply py_eqb_false in E1. apply py_eqb_eq in E2. subst.
    exfalso. apply E1. congruence.
  - congruence.
Qed.

End Renaming.

Section MatchingInvariants.
Context {N : Type} `{Hashable N} {L : Type} `{Hashable L}.

Lemma matched_loop (label_dict : dict N L) (D : DiGraph L) :
  NoDup (keys label_dict) ->
  (forall l, In l (keys (nodesets_per_label label_dict)) ->
     exists x, best_matched_label D l = Ok x) ->
  exists out,
    for_each (keys (nodesets_per_label label_dict))
      (fun matched_label_dict l_t =>
         best <- best_matched_label D l_t ;;
         let nodeset := get_default l_t (nodesets_per_label label_dict) [] in
         Ok (fold_left (fun m n => setitem n best m) nodeset matched_label_dict))
      [] = Ok out
    /\ NoDup (keys out)
    /\ forall n x, get n out = Some x <->
         exists l, In (n, l) label_dict /\ best_matched_label D l = Ok x.
Proof.
  intros Hnd Hbest.
  destruct (for_each_invariant
              (fun pre (out : dict N L) =>
                 NoDup (keys out)
                 /\ forall n x, get n out = Some x <->
                      exists l, In l pre /\ In (n, l) label_dict
                                /\ best_matched_label D l = Ok x)
              (keys (nodesets_per_label label_dict))
              (fun matched_label_dict l_t =>
                 best <- best_matched_label D l_t ;;
                 let nodeset :=
                   get_default l_t (nodesets_per_label label_dict) [] in
                 Ok (fold_left (fun m n => setitem n best m) nodeset
                       matched_label_dict))
              []) as [out [Hrun [Hkeys Hout]]].
  - split; [constructor |]. intros n x. split; [discriminate |].
    intros [l [[] _]].
  - intros pre l_t acc [Hacc_nd Hacc] Hin.
    destruct (Hbest l_t Hin) as [b Hb]. rewrite Hb. cbn [bind]. cbv zeta.
    eexists. split; [reflexivity |].
    split; [apply NoDup_keys_fold_setitem; exact Hacc_nd |].
    intros n x. rewrite get_fold_setitem.
    destruct (mem n (get_default l_t (nodesets_per_label label_dict) [])) eqn:Em.
    + apply mem_In, nodesets_member in Em. split.
      * intros [= <-]. exists l_t. split; [apply in_or_app; right; left; reflexivity |].
        split; assumption.
      * intros [l [_ [Hl Hx]]].
        rewrite (one_label_per_node label_dict n l l_t Hnd Hl Em) in Hx. congruence.
    + apply mem_not_In in Em. rewrite nodesets_member in Em.
      rewrite Hacc. split.
      * intros [l [Hl Hrest]]. exists l. split; [apply in_or_app; left; exact Hl |].
        exact Hrest.
      * intros [l [Hl [Hnl Hx]]]. exists l. apply in_app_or in Hl.
        destruct Hl as [Hl | [<- | []]]; [auto | contradiction].
  - exists out. split; [exact Hrun |]. split; [exact Hkeys |].
    intros n x. rewrite Hout. split.
    + intros [l [_ Hrest]]. exists l. exact Hrest.
    + intros [l [Hl Hx]]. exists l. split; [| split; assumption].
      apply nodesets_keys. exists n. exact Hl.
Qed.

(** X14: what [match_labels] preserves on every pair of dicts (the keys
    of a dict are distinct): the mapping returned has the nodes of
    [label_dict] as its keys, each once; the nodes of one group receive one
    label; two different groups never receive the same label; and every
    label of the result is a label of [label_dict] or of
    [prev_label_dict]. *)
Lemma match_labels_is_a_renaming (label_dict prev_label_dict : dict N L) :
  NoDup (keys label_dict) ->
  exists matched_label_dict,
    match_labels label_dict prev_label_dict = Ok matched_label_dict
    /\ NoDup (keys matched_label_dict)
    /\ (forall n, In n (keys matched_label_dict) <-> In n (keys label_dict))
    /\ (forall n1 n2 l, In (n1, l) label_dict -> In (n2, l) label_dict ->
          get n1 matched_label_dict = get n2 matched_label_dict)
    /\ (forall n1 n2 l1 l2 x,
          In (n1, l1) label_dict -> In (n2, l2) label_dict ->
          get n1 matched_label_dict = Some x ->
          get n2 matched_label_dict = Some x -> l1 = l2)
    /\ (forall n x, get n matched_label_dict = Some x ->
          In x (map snd label_dict) \/ In x (map snd prev_label_dict)).
Proof.
  intro Hnd. destruct prev_label_dict as [| p prev].
  - exists label_dict. split; [reflexivity |]. split; [exact Hnd |].
    split; [tauto |]. split; [| split].
    + intros n1 n2 l H1 H2.
      rewrite (In_get n1 l label_dict Hnd H1), (In_get n2 l label_dict Hnd H2).
      reflexivity.
    + intros n1 n2 l1 l2 x H1 H2 G1 G2.
      rewrite (In_get n1 l1 label_dict Hnd H1) in G1.
      rewrite (In_get n2 l2 label_dict Hnd H2) in G2. congruence.
    + intros n x Hg. left. apply label_in_values. exists n.
      exact (get_In n x label_dict Hg).
  - set (prev_label_dict := p :: prev).
    destruct (build_overlap_graph_ok (nodesets_per_label label_dict)
                (nodesets_per_label prev_label_dict)
                (nodesets_nonempty label_dict)
                (nodesets_not_nil prev_label_dict ltac:(discriminate)))
      as [g [Hg [Hdense [Hts Hvertices]]]].
    destruct (build_max_overlap_digraph_ok g Hdense) as [D [HD [Hheads Hall]]].
    assert (Hbest : forall l, In l (keys (nodesets_per_label label_dict)) ->
                      exists x, best_matched_label D l = Ok x).
    { intros l Hl.
      destruct (best_matched_label_ok g D l Hheads Hall (Hts l Hl))
        as [m [back [_ [Hb _]]]].
      eexists. exact Hb. }
    destruct (matched_loop label_dict D Hnd Hbest) as [out [Hrun [Hkeys Hout]]].
    assert (Hlabel : forall n l, In (n, l) label_dict ->
                       exists x, best_matched_label D l = Ok x
                                 /\ get n out = Some x).
    { intros n l Hl.
      destruct (Hbest l (proj2 (nodesets_keys label_dict l) (ex_intro _ n Hl)))
        as [x Hx].
      exists x. split; [exact Hx |]. apply Hout. exists l. split; assumption. }
    exists out. split.
    { unfold match_labels, prev_label_dict. cbv zeta.
      fold prev_label_dict. rewrite Hg. cbn [bind]. rewrite HD. cbn [bind].
      exact Hrun. }
    split; [exact Hkeys |]. split; [| split; [| split]].
    + intro n. rewrite <- get_keys. split.
      * intro Hn. destruct (get n out) as [x |] eqn:Ex; [| congruence].
        apply Hout in Ex. destruct Ex as [l [Hl _]]. exact (In_keys n l _ Hl).
      * intro Hn. destruct (keys_get n label_dict Hn) as [l Hl].
        destruct (Hlabel n l (get_In n l label_dict Hl)) as [x [_ Hx]].
        rewrite Hx. discriminate.
    + intros n1 n2 l H1 H2.
      destruct (Hlabel n1 l H1) as [x1 [Hb1 Hx1]].
      destruct (Hlabel n2 l H2) as [x2 [Hb2 Hx2]].
      rewrite Hx1, Hx2. congruence.
    + intros n1 n2 l1 l2 x H1 H2 G1 G2.
      destruct (Hlabel n1 l1 H1) as [x1 [Hb1 Hx1]].
      destruct (Hlabel n2 l2 H2) as [x2 [Hb2 Hx2]].
      assert (x1 = x) by congruence. assert (x2 = x) by congruence. subst x1 x2.
      exact (best_matched_label_injective D l1 l2 x Hb1 Hb2).
    + intros n x Hx. apply Hout in Hx. destruct Hx as [l [Hl Hb]].
      apply best_matched_label_inv in Hb.
      destruct Hb as [m [back [Hm [_ Hx]]]].
      assert (Hlab : In l (map snd label_dict)).
      { apply label_in_values. exists n. exact Hl. }
      destruct (py_eqb back l); [| subst x; left; exact Hlab].
      subst x. unfold first_successor in Hm.
      destruct (get l (succ D)) as [[| m' r] |] eqn:El; try discriminate Hm.
      injection Hm as ->.
      destruct (Hvertices m (Hheads l m r El)) as [Hm | Hm];
        apply nodesets_keys, label_in_values in Hm; auto.
Qed.

End MatchingInvariants.

Lemma match_labels_is_a_renaming_witness :
  exists matched_label_dict,
    match_labels Samples.labels_t Samples.labels_t_minus_1 = Ok matched_label_dict
    /\ NoDup (keys matched_label_dict)
    /\ forall n, In n (keys matched_label_dict) <-> In n (keys Samples.labels_t).
Proof.
  destruct (match_labels_is_a_renaming Samples.labels_t Samples.labels_t_minus_1)
    as [m [Hm [Hnd [Hkeys _]]]].
  - repeat constructor; simpl; intuition discriminate.
  - exists m. split; [exact Hm |]. split; [exact Hnd | exact Hkeys].
Defined.

(** * Further properties of the five functions *)

(** ** Sets as duplicate-free lists *)

Section SetFacts.
Context {K : Type} `{Hashable K}.

Lemma NoDup_set_add (x : K) (s : list K) : NoDup s -> NoDup (set_add x s).
Proof.
  intro Hs. unfold set_add. destruct (mem x s) eqn:E; [exact Hs |].
  apply mem_not_In in E. apply NoDup_app; [exact Hs | | ].
  - constructor; [intros [] | constructor].
  - intros a Ha [<- | []]. exact (E Ha).
Qed.

Lemma NoDup_set_of (xs : list K) : NoDup (set_of xs).
Proof.
  unfold set_of.
  apply (fold_left_invariant (fun s : list K => NoDup s)); [constructor |].
  intros s x Hs. apply NoDup_set_add. exact Hs.
Qed.

Lemma NoDup_set_and (a b : list K) : NoDup a -> NoDup (set_and a b).
Proof. intro Ha. unfold set_and. apply NoDup_filter. exact Ha. Qed.

Lemma NoDup_set_or (a b : list K) : NoDup a -> NoDup b -> NoDup (set_or a b).
Proof.
  intros Ha Hb. unfold set_or. apply NoDup_app; [exact Ha | | ].
  - apply NoDup_filter. exact Hb.
  - intros x Hx Hf. apply filter_In in Hf. destruct Hf as [_ Hf].
    apply negb_true_iff, mem_not_In in Hf. exact (Hf Hx).
Qed.

Lemma same_elements_same_length (a b : list K) :
  NoDup a -> NoDup b -> (forall x, In x a <-> In x b) ->
  List.length a = List.length b.
Proof.
  intros Ha Hb Hab. apply Permutation_length.
  apply NoDup_Permutation; assumption.
Qed.

Lemma length_set_and_comm (a b : list K) :
  NoDup a -> NoDup b ->
  List.length (set_and a b) = List.length (set_and b a).
Proof.
  intros Ha Hb. apply same_elements_same_length.
  - apply NoDup_set_and. exact Ha.
  - apply NoDup_set_and. exact Hb.
  - intro x. rewrite !In_set_and. tauto.
Qed.

Lemma length_set_or_comm (a b : list K) :
  NoDup a -> NoDup b ->
  List.length (set_or a b) = List.length (set_or b a).
Proof.
  intros Ha Hb. apply same_elements_same_length.
  - apply NoDup_set_or; assumption.
  - apply NoDup_set_or; assumption.
  - intro x. rewrite !In_set_or. tauto.
Qed.

Lemma length_set_and_le_or (a b : list K) :
  (List.length (set_and a b) <= List.length (set_or a b))%nat.
Proof.
  unfold set_and, set_or. rewrite length_app.
  pose proof (filter_length_le (fun x => mem x b) a). lia.
Qed.

(** The intersection fills the union exactly when the two sets have the
    same elements. *)
Lemma and_fills_or (a b : list K) :
  NoDup a -> NoDup b ->
  (List.length (set_and a b) = List.length (set_or a b)
   <-> forall x, In x a <-> In x b).
Proof.
  intros Ha Hb. split.
  - intro Hlen.
    assert (Hincl : incl (set_or a b) (set_and a b)).
    { apply NoDup_length_incl.
      - apply NoDup_set_and. exact Ha.
      - rewrite Hlen. apply Nat.le_refl.
      - intros x Hx. apply In_set_and in Hx. apply In_set_or. tauto. }
    intro x. split; intro Hx.
    + assert (Hor : In x (set_or a b)) by (apply In_set_or; auto).
      apply Hincl, In_set_and in Hor. tauto.
    + assert (Hor : In x (set_or a b)) by (apply In_set_or; auto).
      apply Hincl, In_set_and in Hor. tauto.
  - intro Hsame. apply same_elements_same_length.
    + apply NoDup_set_and. exact Ha.
    + apply NoDup_set_or; assumption.
    + intro x. rewrite In_set_and, In_set_or, (Hsame x). tauto.
Qed.

End SetFacts.

Lemma ratio_zero (u i : Z) :
  (0 < u)%Z ->
  ((inject_Z u - inject_Z i) / inject_Z u == 0 <-> i = u).
Proof.
  intro Hu.
  assert (Hpos : 0 < inject_Z u).
  { replace 0 with (inject_Z 0) by reflexivity. rewrite <- Zlt_Qlt. exact Hu. }
  assert (Hnz : ~ inject_Z u == 0).
  { intro Hz. rewrite Hz in Hpos. exact (Qlt_irrefl 0 Hpos). }
  split.
  - intro E.
    assert (E' : inject_Z u - inject_Z i == 0).
    { rewrite <- (Qmult_div_r (inject_Z u - inject_Z i) (inject_Z u) Hnz).
      rewrite E. ring. }
    assert (E'' : inject_Z i == inject_Z u).
    { rewrite <- (Qplus_0_l (inject_Z i)), <- E'. ring. }
    exact (proj1 (inject_Z_injective _ _) E'').
  - intros ->. field. exact Hnz.
Qed.

(** ** The unweighted distances *)

Lemma graph_distance_on_reported_tuples_witness :
  exists q,
    graph_distance Samples.g0 Samples.g1 false = Ok q
    /\ q == (len (set_or (set_of (edges Samples.g1)) (set_of (edges Samples.g0)))
             - len (set_and (set_of (edges Samples.g1)) (set_of (edges Samples.g0))))
            / len (set_or (set_of (edges Samples.g1)) (set_of (edges Samples.g0)))
    /\ 0 <= q <= 1
    /\ (q = 1 <-> forall e, In e (edges Samples.g1) -> ~ In e (edges Samples.g0)).
Proof.
  apply (graph_distance_on_reported_tuples Samples.g0 Samples.g1).
  left. vm_compute. discriminate.
Defined.

Lemma Ok_inj {A : Type} (a b : A) : Ok a = Ok b -> a = b.
Proof. intro E. injection E. trivial. Qed.

Section UnweightedSymmetry.
Context {V : Type} `{Hashable V}.

(** X2: the unweighted [graph_distance] is symmetric in its two graphs,
    the failure on two graphs without edges included. *)
Theorem graph_distance_unweighted_symmetric (g0 g1 : Graph V) :
  graph_distance g0 g1 false = graph_distance g1 g0 false.
Proof.
  unfold graph_distance. cbn [negb]. unfold len.
  rewrite (length_set_or_comm (set_of (edges g1)) (set_of (edges g0))
             (NoDup_set_of _) (NoDup_set_of _)).
  rewrite (length_set_and_comm (set_of (edges g1)) (set_of (edges g0))
             (NoDup_set_of _) (NoDup_set_of _)).
  reflexivity.
Qed.

(** X3: when some edge exists, the unweighted [graph_distance] is 0
    exactly when the two graphs report the same edge tuples; the distance
    of a graph to itself is 0. *)
Theorem graph_distance_zero_iff_same_tuples (g0 g1 : Graph V) :
  edges g0 <> [] \/ edges g1 <> [] ->
  (graph_distance g0 g1 false = Ok 0
   <-> forall e, In e (edges g0) <-> In e (edges g1)).
Proof.
  intro Hedge. unfold graph_distance. cbn [negb].
  set (A := set_of (edges g1)). set (B := set_of (edges g0)).
  assert (HA : NoDup A) by apply NoDup_set_of.
  assert (HB : NoDup B) by apply NoDup_set_of.
  assert (HU : set_or A B <> []).
  { intro E. apply set_or_nil in E. destruct E as [EA EB].
    apply (proj1 (set_of_nil _)) in EA. apply (proj1 (set_of_nil _)) in EB.
    tauto. }
  assert (Hu : (0 < Z.of_nat (List.length (set_or A B)))%Z).
  { destruct (set_or A B); [congruence | simpl; lia]. }
  unfold truediv. rewrite (len_not_zero (set_or A B) HU).
  assert (Hzero := ratio_zero (Z.of_nat (List.length (set_or A B)))
                     (Z.of_nat (List.length (set_and A B))) Hu).
  assert (Hsame : (forall e, In e (edges g0) <-> In e (edges g1))
                  <-> (forall x, In x A <-> In x B)).
  { unfold A, B. split; intros Hs e.
    - rewrite (In_set_of e (edges g1)), (In_set_of e (edges g0)).
      symmetry. apply Hs.
    - specialize (Hs e).
      rewrite (In_set_of e (edges g1)), (In_set_of e (edges g0)) in Hs.
      symmetry. exact Hs. }
  rewrite Hsame, <- (and_fills_or A B HA HB). split.
  - intro E. apply Ok_inj in E.
    assert (Hq : (len (set_or A B) - len (set_and A B)) / len (set_or A B) == 0).
    { rewrite <- (Qred_correct (_ / _)). rewrite E. reflexivity. }
    apply Hzero in Hq. lia.
  - intro Hlen. f_equal.
    assert (Hq : (len (set_or A B) - len (set_and A B)) / len (set_or A B) == 0).
    { apply Hzero. rewrite Hlen. reflexivity. }
    apply Qred_complete in Hq. exact Hq.
Qed.

End UnweightedSymmetry.

Lemma graph_distance_zero_iff_same_tuples_witness :
  graph_distance Samples.g0 Samples.g0 false = Ok 0.
Proof.
  apply (graph_distance_zero_iff_same_tuples Samples.g0 Samples.g0).
  - left. vm_compute. discriminate.
  - intro e. tauto.
Defined.

Section NodeDistance.
Context {V : Type} `{Hashable V}.

(** X4: when some node exists, [node_graph_distance] returns the Jaccard
    distance 1 - |intersection| / |union| of the two node sets; it lies
    between 0 and 1, is 1 exactly when the graphs share no node, and is 0
    exactly when they have the same nodes. *)
Theorem node_graph_distance_value (g0 g1 : Graph V) :
  nodes g0 <> [] \/ nodes g1 <> [] ->
  exists q,
    node_graph_distance g0 g1 = Ok q
    /\ q == 1 - len (set_and (set_of (nodes g0)) (set_of (nodes g1)))
               / len (set_or (set_of (nodes g0)) (set_of (nodes g1)))
    /\ 0 <= q <= 1
    /\ (q = 1 <-> forall n, In n (nodes g0) -> ~ In n (nodes g1))
    /\ (q = 0 <-> forall n, In n (nodes g0) <-> In n (nodes g1)).
Proof.
  intro Hnode. unfold node_graph_distance.
  set (A := set_of (nodes g0)). set (B := set_of (nodes g1)).
  assert (HA : NoDup A) by apply NoDup_set_of.
  assert (HB : NoDup B) by apply NoDup_set_of.
  assert (HU : set_or A B <> []).
  { intro E. apply set_or_nil in E. destruct E as [EA EB].
    apply (proj1 (set_of_nil _)) in EA. apply (proj1 (set_of_nil _)) in EB.
    tauto. }
  assert (Hu : (0 < Z.of_nat (List.length (set_or A B)))%Z).
  { destruct (set_or A B); [congruence | simpl; lia]. }
  assert (Hle := length_set_and_le_or A B).
  destruct (ratio_bounds (Z.of_nat (List.length (set_or A B)))
              (Z.of_nat (List.length (set_and A B))) Hu)
    as [H0 [H1 Hone]]; [lia |].
  assert (Hzero := ratio_zero (Z.of_nat (List.length (set_or A B)))
                     (Z.of_nat (List.length (set_and A B))) Hu).
  assert (Hnz : ~ len (set_or A B) == 0).
  { intro Hz. apply Qeq_bool_iff in Hz.
    rewrite (len_not_zero (set_or A B) HU) in Hz. discriminate Hz. }
  assert (Hform : 1 - Qred (len (set_and A B) / len (set_or A B))
                  == (len (set_or A B) - len (set_and A B)) / len (set_or A B)).
  { rewrite Qred_correct. field. exact Hnz. }
  unfold truediv. rewrite (len_not_zero (set_or A B) HU). cbn [bind].
  eexists. split; [reflexivity |].
  split; [rewrite Qred_correct, Qred_correct; reflexivity |].
  split; [rewrite Qred_correct, Hform; split; [exact H0 | exact H1] |].
  split.
  - transitivity (List.length (set_and A B) = 0%nat).
    + split.
      * intro E.
        assert (Hq : (len (set_or A B) - len (set_and A B)) / len (set_or A B) == 1).
        { rewrite <- Hform, <- (Qred_correct (1 - _)), E. reflexivity. }
        apply Hone in Hq. lia.
      * intro Hlen.
        assert (Hq : (len (set_or A B) - len (set_and A B)) / len (set_or A B) == 1).
        { apply Hone. rewrite Hlen. reflexivity. }
        rewrite <- Hform in Hq. apply Qred_complete in Hq. exact Hq.
    + rewrite length_zero_iff_nil, set_and_nil. unfold A, B. split; intros Hd n Hn.
      * intro Hn'. apply (Hd n); apply In_set_of; assumption.
      * intro Hn'. exact (Hd n (proj1 (In_set_of n _) Hn) (proj1 (In_set_of n _) Hn')).
  - transitivity (List.length (set_and A B) = List.length (set_or A B)).
    + split.
      * intro E.
        assert (Hq : (len (set_or A B) - len (set_and A B)) / len (set_or A B) == 0).
        { rewrite <- Hform, <- (Qred_correct (1 - _)), E. reflexivity. }
        apply Hzero in Hq. lia.
      * intro Hlen.
        assert (Hq : (len (set_or A B) - len (set_and A B)) / len (set_or A B) == 0).
        { apply Hzero. rewrite Hlen. reflexivity. }
        rewrite <- Hform in Hq. apply Qred_complete in Hq. exact Hq.
    + rewrite (and_fills_or A B HA HB). unfold A, B. split; intros Hs n.
      * specialize (Hs n).
        rewrite (In_set_of n (nodes g0)), (In_set_of n (nodes g1)) in Hs. exact Hs.
      * rewrite (In_set_of n (nodes g0)), (In_set_of n (nodes g1)). apply Hs.
Qed.

(** X5: [node_graph_distance] is symmetric in its two graphs, the failure
    on two graphs without nodes included. *)
Theorem node_graph_distance_symmetric (g0 g1 : Graph V) :
  node_graph_distance g0 g1 = node_graph_distance g1 g0.
Proof.
  unfold node_graph_distance, len.
  rewrite (length_set_or_comm (set_of (nodes g0)) (set_of (nodes g1))
             (NoDup_set_of _) (NoDup_set_of _)).
  rewrite (length_set_and_comm (set_of (nodes g0)) (set_of (nodes g1))
             (NoDup_set_of _) (NoDup_set_of _)).
  reflexivity.
Qed.

End NodeDistance.

Lemma node_graph_distance_value_witness :
  exists q,
    node_graph_distance Samples.g1 Samples.g0 = Ok q
    /\ q == 1 - len (set_and (set_of (nodes Samples.g1)) (set_of (nodes Samples.g0)))
               / len (set_or (set_of (nodes Samples.g1)) (set_of (nodes Samples.g0)))
    /\ 0 <= q <= 1
    /\ (q = 1 <-> forall n, In n (nodes Samples.g1) -> ~ In n (nodes Samples.g0))
    /\ (q = 0 <-> forall n, In n (nodes Samples.g1) <-> In n (nodes Samples.g0)).
Proof.
  apply (node_graph_distance_value Samples.g1 Samples.g0).
  left. vm_compute. discriminate.
Defined.

(** ** Estrangement: what the result depends on *)

Lemma comprehension_ext {A B : Type} (xs : list A)
    (keep keep' : A -> result bool) (f f' : A -> result B) :
  (forall x, In x xs -> keep x = keep' x) ->
  (forall x, In x xs -> f x = f' x) ->
  comprehension xs keep f = comprehension xs keep' f'.
Proof.
  induction xs as [| x xs IH]; intros Hkeep Hf; simpl; [reflexivity |].
  rewrite <- (Hkeep x (or_introl eq_refl)), <- (Hf x (or_introl eq_refl)).
  rewrite IH.
  - reflexivity.
  - intros y Hy. apply Hkeep. right. exact Hy.
  - intros y Hy. apply Hf. right. exact Hy.
Qed.

Section EstrangementDependence.
Context {V : Type} `{Hashable V} {L : Type} `{Hashable L}.

(** X12: [Estrangement] reads [label_dict] only at the endpoints of the
    edges of [Zgraph]: two label dicts that agree there give the same
    result, failures included. *)
Theorem Estrangement_reads_consort_endpoints
    (G : Graph V) (label_dict label_dict' : dict V L) (Zgraph : Graph V) :
  (forall e, In e (edges Zgraph) ->
     get (fst e) label_dict = get (fst e) label_dict'
     /\ get (snd e) label_dict = get (snd e) label_dict') ->
  Estrangement G label_dict Zgraph = Estrangement G label_dict' Zgraph.
Proof.
  intro Hagree. unfold Estrangement.
  destruct (Nat.eqb _ 0); [reflexivity |].
  rewrite (comprehension_ext (edges_data Zgraph)
             (fun e => l0 <- getitem (fst (fst e)) label_dict ;;
                       l1 <- getitem (snd (fst e)) label_dict ;;
                       Ok (negb (py_eqb l0 l1)))
             (fun e => l0 <- getitem (fst (fst e)) label_dict' ;;
                       l1 <- getitem (snd (fst e)) label_dict' ;;
                       Ok (negb (py_eqb l0 l1)))
             (fun e => weight_of (snd e)) (fun e => weight_of (snd e))).
  - reflexivity.
  - intros x Hx.
    assert (He : In (fst x) (edges Zgraph)) by (unfold edges; apply in_map; exact Hx).
    destruct (Hagree (fst x) He) as [Hu Hv].
    unfold getitem. rewrite Hu, Hv. reflexivity.
  - reflexivity.
Qed.

Context {L' : Type} `{Hashable L'}.

Lemma get_rename_labels (f : L -> L') (label_dict : dict V L) (n : V) :
  get n (Spec.rename_labels f label_dict)
  = match get n label_dict with Some l => Some (f l) | None => None end.
Proof.
  induction label_dict as [| [k l] d IH]; simpl; [reflexivity |].
  destruct (py_eqb n k); [reflexivity | exact IH].
Qed.

(** X11: [Estrangement] depends on the partition and not on the names of
    the labels: renaming the labels by an injective function leaves the
    result unchanged, failures included. *)
Theorem Estrangement_renaming_invariant
    (f : L -> L') (G : Graph V) (label_dict : dict V L) (Zgraph : Graph V) :
  (forall a b, f a = f b -> a = b) ->
  Estrangement G (Spec.rename_labels f label_dict) Zgraph
  = Estrangement G label_dict Zgraph.
Proof.
  intro Hinj. unfold Estrangement.
  destruct (Nat.eqb _ 0); [reflexivity |].
  rewrite (comprehension_ext (edges_data Zgraph)
             (fun e => l0 <- getitem (fst (fst e)) (Spec.rename_labels f label_dict) ;;
                       l1 <- getitem (snd (fst e)) (Spec.rename_labels f label_dict) ;;
                       Ok (negb (py_eqb l0 l1)))
             (fun e => l0 <- getitem (fst (fst e)) label_dict ;;
                       l1 <- getitem (snd (fst e)) label_dict ;;
                       Ok (negb (py_eqb l0 l1)))
             (fun e => weight_of (snd e)) (fun e => weight_of (snd e))).
  - reflexivity.
  - intros x _. unfold getitem. rewrite !get_rename_labels.
    destruct (get (fst (fst x)) label_dict) as [a |]; [| reflexivity].
    destruct (get (snd (fst x)) label_dict) as [b |]; [| reflexivity].
    cbn [bind]. f_equal. f_equal.
    destruct (py_eqb a b) eqn:E.
    + apply py_eqb_eq in E. subst b. apply py_eqb_refl.
    + apply py_eqb_false in E. apply py_eqb_neq. intro Hf. exact (E (Hinj a b Hf)).
  - reflexivity.
Qed.

End EstrangementDependence.

Lemma Estrangement_reads_consort_endpoints_witness :
  Estrangement Samples.g0 Samples.communities Samples.g1
  = Estrangement Samples.g0 Samples.communities_1_2 Samples.g1.
Proof.
  apply (Estrangement_reads_consort_endpoints
           Samples.g0 Samples.communities Samples.communities_1_2 Samples.g1).
  intros e He. each_member He; split; reflexivity.
Defined.

Lemma Estrangement_renaming_invariant_witness :
  Estrangement Samples.g0
    (Spec.rename_labels Samples.prefixed Samples.communities) Samples.g0
  = Estrangement Samples.g0 Samples.communities Samples.g0.
Proof.
  apply (Estrangement_renaming_invariant
           Samples.prefixed Samples.g0 Samples.communities Samples.g0).
  intros a b E. injection E as E. exact E.
Defined.

(** ** The overlap graph, entry by entry *)

Section OverlapEntries.
Context {V : Type} `{Hashable V}.

Lemma get_after_add_nodes (n u v : V) (G : Graph V) (row0 : dict V edge_data) :
  get n (adj G) = Some row0 ->
  get n (adj (add_node v (add_node u G))) = Some row0.
Proof. intro Hg. rewrite !get_add_node, Hg. reflexivity. Qed.

Lemma add_edge_entry (n u v m : V) (w : Q) (G : Graph V)
    (row : dict V edge_data) (d : edge_data) :
  get n (adj (add_edge u v (Some w) G)) = Some row ->
  In (m, d) row ->
  (d = Some w /\ ((n = u /\ m = v) \/ (n = v /\ m = u)))
  \/ exists row0, get n (adj G) = Some row0 /\ In (m, d) row0.
Proof.
  unfold add_edge. cbn [adj update].
  set (a2 := adj (add_node v (add_node u G))).
  rewrite !get_setitem.
  assert (Hru : forall m d,
             In (m, d) (setitem v (Some w) (get_default u a2 [])) ->
             (d = Some w /\ m = v)
             \/ exists row0, get u (adj G) = Some row0 /\ In (m, d) row0).
  { intros m' d' Hin. apply In_setitem in Hin. destruct Hin as [E | Hin].
    - injection E as -> ->. left. auto.
    - right. exact (old_row_after_add_node u u v m' d' G Hin). }
  destruct (py_eqb n v) eqn:Ev.
  - apply py_eqb_eq in Ev. subst n. intros [= <-] Hin.
    apply In_setitem in Hin. destruct Hin as [E | Hin].
    + injection E as -> ->. left. auto.
    + unfold get_default in Hin. rewrite get_setitem in Hin.
      destruct (py_eqb v u) eqn:Evu.
      * apply py_eqb_eq in Evu. subst v.
        destruct (Hru m d Hin) as [[-> ->] | Hold]; [left; auto | right; exact Hold].
      * right. exact (old_row_after_add_node v u v m d G Hin).
  - destruct (py_eqb n u) eqn:Eu.
    + apply py_eqb_eq in Eu. subst n. intros [= <-] Hin.
      destruct (Hru m d Hin) as [[-> ->] | Hold]; [left; auto | right; exact Hold].
    + intros Hg Hin. right. exists row. split; [| exact Hin].
      apply py_eqb_false in Ev. apply py_eqb_false in Eu.
      unfold a2 in Hg. rewrite !get_add_node in Hg.
      destruct (get n (adj G)); [exact Hg |].
      rewrite (py_eqb_neq n u Eu) in Hg. rewrite (py_eqb_neq n v Ev) in Hg.
      discriminate Hg.
Qed.

Lemma add_edge_keeps_key (n m u v : V) (attr : edge_data) (G : Graph V)
    (row0 : dict V edge_data) :
  get n (adj G) = Some row0 -> In m (keys row0) ->
  exists row, get n (adj (add_edge u v attr G)) = Some row /\ In m (keys row).
Proof.
  intros Hg Hm. unfold add_edge. cbn [adj].
  set (a2 := adj (add_node v (add_node u G))).
  assert (Ha2 : get n a2 = Some row0) by (apply get_after_add_nodes; exact Hg).
  rewrite !get_setitem.
  destruct (py_eqb n v) eqn:Ev.
  - apply py_eqb_eq in Ev. subst n. eexists. split; [reflexivity |].
    apply keys_setitem. right. unfold get_default. rewrite get_setitem.
    destruct (py_eqb v u) eqn:Evu.
    + apply py_eqb_eq in Evu. subst v. apply keys_setitem. right.
      unfold get_default. rewrite Ha2. exact Hm.
    + rewrite Ha2. exact Hm.
  - destruct (py_eqb n u) eqn:Eu.
    + apply py_eqb_eq in Eu. subst n. eexists. split; [reflexivity |].
      apply keys_setitem. right. unfold get_default. rewrite Ha2. exact Hm.
    + exists row0. split; [exact Ha2 | exact Hm].
Qed.

Lemma add_edge_new_keys (u v : V) (attr : edge_data) (G : Graph V) :
  (exists row, get u (adj (add_edge u v attr G)) = Some row /\ In v (keys row))
  /\ (exists row, get v (adj (add_edge u v attr G)) = Some row /\ In u (keys row)).
Proof.
  unfold add_edge. cbn [adj]. rewrite !get_setitem. split.
  - destruct (py_eqb u v) eqn:E.
    + apply py_eqb_eq in E. subst v. eexists. split; [reflexivity |].
      apply keys_setitem. left. reflexivity.
    + rewrite py_eqb_refl. eexists. split; [reflexivity |].
      apply keys_setitem. left. reflexivity.
  - rewrite py_eqb_refl. eexists. split; [reflexivity |].
    apply keys_setitem. left. reflexivity.
Qed.

Lemma fold_max_is_max {A : Type} (key : A -> Q) (rest : list A) (x : A) :
  let r := fold_left
             (fun best y => if Qlt_le_dec (key best) (key y) then y else best)
             rest x in
  key x <= key r /\ forall y, In y rest -> key y <= key r.
Proof.
  revert x. induction rest as [| z rest IH]; intro x; simpl.
  - split; [apply Qle_refl | intros y []].
  - destruct (IH (if Qlt_le_dec (key x) (key z) then z else x)) as [Hstart Hrest].
    destruct (Qlt_le_dec (key x) (key z)) as [Hlt | Hle].
    + split; [apply Qle_trans with (key z); [apply Qlt_le_weak; exact Hlt | exact Hstart] |].
      intros y [<- | Hy]; [exact Hstart | exact (Hrest y Hy)].
    + split; [exact Hstart |].
      intros y [<- | Hy]; [apply Qle_trans with (key x); assumption | exact (Hrest y Hy)].
Qed.

Lemma max_by_is_max {A : Type} (key : A -> Q) (xs : list A) (b : A) :
  max_by key xs = Ok b -> forall x, In x xs -> key x <= key b.
Proof.
  destruct xs as [| x0 rest]; simpl; [discriminate |].
  intro E. apply Ok_inj in E. subst b.
  destruct (fold_max_is_max key rest x0) as [Hstart Hrest].
  intros x [<- | Hx]; [exact Hstart | exact (Hrest x Hx)].
Qed.

(** A row whose only entry of weight 1 is the entry of [c], all others
    having weight 0, selects [c]. *)
Lemma maxwt_nbr_of_indicator (G : Graph V) (v c : V) (row : dict V edge_data) :
  get v (adj G) = Some row ->
  In c (keys row) ->
  (forall m d, In (m, d) row -> d = Some (if py_eqb m c then 1 else 0)) ->
  maxwt_nbr G v = Some c.
Proof.
  intros Hrow Hc Hind. unfold maxwt_nbr. rewrite Hrow.
  unfold keys in Hc. apply in_map_iff in Hc. destruct Hc as [[c' dc] [Ec Hcin]].
  simpl in Ec. subst c'.
  assert (Hwc : In (c, 1) (weighted_neighbours row)).
  { unfold weighted_neighbours. apply in_map_iff. exists (c, dc).
    split; [| exact Hcin]. simpl. rewrite (Hind c dc Hcin), py_eqb_refl. reflexivity. }
  destruct (max_by snd (weighted_neighbours row)) as [best | e] eqn:Emax.
  - assert (Hmax := max_by_is_max snd _ best Emax (c, 1) Hwc). simpl in Hmax.
    apply max_by_In in Emax. unfold weighted_neighbours in Emax.
    apply in_map_iff in Emax. destruct Emax as [[m d] [<- Hin]]. simpl in *.
    rewrite (Hind m d Hin) in Hmax.
    destruct (py_eqb m c) eqn:E.
    + apply py_eqb_eq in E. subst m. reflexivity.
    + exfalso. apply (Qle_not_lt _ _ Hmax). reflexivity.
  - exfalso. destruct (weighted_neighbours row) as [| x l]; [destruct Hwc |].
    simpl in Emax. discriminate Emax.
Qed.

End OverlapEntries.

Lemma for_each_run {A S : Type} (P : list A -> S -> Prop)
    (xs : list A) (body : S -> A -> result S) (acc r : S) :
  for_each xs body acc = Ok r ->
  P [] acc ->
  (forall pre x a a', In x xs -> P pre a -> body a x = Ok a' -> P (pre ++ [x]) a') ->
  P xs r.
Proof.
  intros Hrun Hacc Hstep.
  assert (Hgen : forall rest pre a,
             (forall x, In x rest -> In x xs) -> P pre a ->
             for_each rest body a = Ok r -> P (pre ++ rest) r).
  { induction rest as [| x rest IH]; intros pre a Hsub Ha Hr; simpl in Hr.
    - apply Ok_inj in Hr. subst r. rewrite app_nil_r. exact Ha.
    - destruct (body a x) as [a' | e] eqn:Hb; [| discriminate Hr]. simpl in Hr.
      replace (pre ++ x :: rest) with ((pre ++ [x]) ++ rest)
        by (rewrite <- app_assoc; reflexivity).
      apply (IH (pre ++ [x]) a').
      + intros y Hy. apply Hsub. right. exact Hy.
      + apply (Hstep pre x a a'); [apply Hsub; left; reflexivity | exact Ha | exact Hb].
      + exact Hr. }
  exact (Hgen xs [] acc (fun x Hx => Hx) Hacc Hrun).
Qed.

Section OverlapWeights.
Context {N : Type} `{Hashable N} {L : Type} `{Hashable L}.

Lemma overlap_row_entries (ts : dict L (list N)) (t : L * list N)
    (t1s : dict L (list N)) (g g' : Graph L) :
  In t ts ->
  for_each t1s
    (fun g t1 =>
       jaccard <- jaccard_overlap (snd t1) (snd t) ;;
       Ok (add_edge (fst t1) (fst t) (Some jaccard) g))
    g = Ok g' ->
  (forall n row m d, get n (adj g') = Some row -> In (m, d) row ->
     (exists row0, get n (adj g) = Some row0 /\ In (m, d) row0)
     \/ written_for ts t1s n m d)
  /\ (forall n m, listed g n m -> listed g' n m)
  /\ (forall t1, In t1 t1s ->
        listed g' (fst t1) (fst t) /\ listed g' (fst t) (fst t1)).
Proof.
  intros Ht Hrun.
  apply (for_each_run
           (fun pre g' =>
              (forall n row m d, get n (adj g') = Some row -> In (m, d) row ->
                 (exists row0, get n (adj g) = Some row0 /\ In (m, d) row0)
                 \/ written_for ts t1s n m d)
              /\ (forall n m, listed g n m -> listed g' n m)
              /\ (forall t1, In t1 pre ->
                    listed g' (fst t1) (fst t) /\ listed g' (fst t) (fst t1)))
           t1s _ g g' Hrun).
  - split; [| split].
    + intros n row m d Hrow Hin. left. exists row. split; assumption.
    + intros n m Hl. exact Hl.
    + intros t1 [].
  - intros pre t1 a a' Ht1 [Hentries [Hkeeps Hnew]] Hbody.
    destruct (jaccard_overlap (snd t1) (snd t)) as [j | e] eqn:Ej;
      [| discriminate Hbody].
    cbn [bind] in Hbody. apply Ok_inj in Hbody. subst a'.
    split; [| split].
    + intros n row m d Hrow Hin.
      destruct (add_edge_entry n (fst t1) (fst t) m j a row d Hrow Hin)
        as [[-> Hnm] | [row0 [Hrow0 Hin0]]].
      * right. exists t1, t, j. repeat split; assumption.
      * exact (Hentries n row0 m d Hrow0 Hin0).
    + intros n m Hl. destruct (Hkeeps n m Hl) as [row0 [Hrow0 Hm]].
      exact (add_edge_keeps_key n m (fst t1) (fst t) (Some j) a row0 Hrow0 Hm).
    + intros t1' Hin. apply in_app_or in Hin. destruct Hin as [Hin | [<- | []]].
      * destruct (Hnew t1' Hin) as [[r1 [Hr1 Hm1]] [r2 [Hr2 Hm2]]]. split.
        -- exact (add_edge_keeps_key _ _ (fst t1) (fst t) (Some j) a r1 Hr1 Hm1).
        -- exact (add_edge_keeps_key _ _ (fst t1) (fst t) (Some j) a r2 Hr2 Hm2).
      * exact (add_edge_new_keys (fst t1) (fst t) (Some j) a).
Qed.

Lemma build_overlap_graph_entries (ts t1s : dict L (list N)) (g : Graph L) :
  build_overlap_graph ts t1s = Ok g ->
  (forall n row m d, get n (adj g) = Some row -> In (m, d) row ->
     written_for ts t1s n m d)
  /\ (forall t t1, In t ts -> In t1 t1s ->
        listed g (fst t1) (fst t) /\ listed g (fst t) (fst t1)).
Proof.
  unfold build_overlap_graph. intro Hrun.
  apply (for_each_run
           (fun pre g =>
              (forall n row m d, get n (adj g) = Some row -> In (m, d) row ->
                 written_for ts t1s n m d)
              /\ (forall t t1, In t pre -> In t1 t1s ->
                    listed g (fst t1) (fst t) /\ listed g (fst t) (fst t1)))
           ts _ empty_graph g Hrun).
  - split.
    + intros n row m d Hrow. discriminate Hrow.
    + intros t t1 [].
  - intros pre t a a' Ht [Hentries Hnew] Hbody.
    destruct (overlap_row_entries ts t t1s a a' Ht Hbody)
      as [Hentries' [Hkeeps' Hnew']].
    split.
    + intros n row m d Hrow Hin.
      destruct (Hentries' n row m d Hrow Hin) as [[row0 [Hrow0 Hin0]] | Hw].
      * exact (Hentries n row0 m d Hrow0 Hin0).
      * exact Hw.
    + intros t' t1 Hin Ht1. apply in_app_or in Hin.
      destruct Hin as [Hin | [<- | []]].
      * destruct (Hnew t' t1 Hin Ht1) as [H1 H2].
        split; apply Hkeeps'; assumption.
      * exact (Hnew' t1 Ht1).
Qed.

Lemma weighted_neighbours_run (row : dict L edge_data) (wts : list (L * Q)) :
  comprehension row (fun _ => Ok true)
    (fun nbr => w <- weight_of (snd nbr) ;; Ok (fst nbr, w)) = Ok wts ->
  wts = weighted_neighbours row.
Proof.
  revert wts. induction row as [| [m d] row IH]; intros wts Hrun; simpl in Hrun.
  - apply Ok_inj in Hrun. subst wts. reflexivity.
  - destruct d as [w |]; [| discriminate Hrun]. simpl in Hrun.
    destruct (comprehension row (fun _ => Ok true)
                (fun nbr => w <- weight_of (snd nbr) ;; Ok (fst nbr, w)))
      as [ys | e]; [| discriminate Hrun].
    simpl in Hrun. apply Ok_inj in Hrun. subst wts.
    rewrite (IH ys eq_refl). reflexivity.
Qed.

(** The arc out of a vertex of the overlap graph leads to the neighbour
    that has the largest weight in its row, the first of them in the row
    among equals. *)
Lemma build_max_overlap_digraph_heads (g : Graph L) (D : DiGraph L) :
  build_max_overlap_digraph g = Ok D ->
  forall x h t, get x (succ D) = Some (h :: t) -> maxwt_nbr g x = Some h.
Proof.
  unfold build_max_overlap_digraph. intro Hrun.
  apply (for_each_run
           (fun (pre : list L) D =>
              forall x h t, get x (succ D) = Some (h :: t) ->
                maxwt_nbr g x = Some h)
           (nodes g) _ empty_digraph D Hrun).
  - intros x h t Hx. discriminate Hx.
  - intros pre v a a' Hv Hheads Hbody x h t Hx.
    unfold neighbors, getitem in Hbody.
    destruct (get v (adj g)) as [row |] eqn:Hrow; [| discriminate Hbody].
    cbn [bind] in Hbody.
    destruct (comprehension row (fun _ => Ok true)
                (fun nbr => w <- weight_of (snd nbr) ;; Ok (fst nbr, w)))
      as [wts | e] eqn:Ewts; [| discriminate Hbody].
    cbn [bind] in Hbody.
    destruct (max_by snd wts) as [best | e] eqn:Ebest; [| discriminate Hbody].
    cbn [bind] in Hbody. apply Ok_inj in Hbody. subst a'.
    apply di_add_edge_head in Hx. destruct Hx as [[-> ->] | [t' Hx]].
    + apply weighted_neighbours_run in Ewts.
      unfold maxwt_nbr. rewrite Hrow, <- Ewts, Ebest. reflexivity.
    + exact (Hheads x h t' Hx).
Qed.

End OverlapWeights.

(** ** Matching a snapshot against a relabelling of itself *)

Section JaccardFacts.
Context {N : Type} `{Hashable N}.

Lemma set_or_not_nil (a b : list N) : b <> [] -> set_or a b <> [].
Proof.
  destruct b as [| x b]; [congruence |]. intros _ E.
  assert (Hx : In x (set_or a (x :: b))).
  { apply In_set_or. right. left. reflexivity. }
  rewrite E in Hx. destruct Hx.
Qed.

Lemma jaccard_overlap_same (a b : list N) :
  NoDup a -> NoDup b -> b <> [] -> (forall x, In x a <-> In x b) ->
  jaccard_overlap a b = Ok 1.
Proof.
  intros Ha Hb Hne Hsame. unfold jaccard_overlap, truediv.
  assert (Hz := len_not_zero (set_or a b) (set_or_not_nil a b Hne)).
  rewrite Hz. f_equal. transitivity (Qred 1); [| reflexivity]. apply Qred_complete.
  unfold len. rewrite (proj2 (and_fills_or a b Ha Hb) Hsame).
  apply Qeq_bool_neq in Hz. unfold Qdiv. apply Qmult_inv_r. exact Hz.
Qed.

Lemma jaccard_overlap_disjoint (a b : list N) :
  b <> [] -> (forall x, In x a -> ~ In x b) ->
  jaccard_overlap a b = Ok 0.
Proof.
  intros Hne Hdis. unfold jaccard_overlap, truediv.
  rewrite (len_not_zero (set_or a b) (set_or_not_nil a b Hne)).
  f_equal. transitivity (Qred 0); [| reflexivity]. apply Qred_complete.
  assert (E : set_and a b = []).
  { destruct (set_and a b) as [| x r] eqn:E; [reflexivity |].
    assert (Hx : In x (set_and a b)) by (rewrite E; left; reflexivity).
    apply In_set_and in Hx. destruct Hx as [Hxa Hxb].
    exfalso. exact (Hdis x Hxa Hxb). }
  rewrite E. unfold len. simpl. unfold Qdiv. apply Qmult_0_l.
Qed.

End JaccardFacts.

Section NodesetFacts.
Context {N : Type} `{Hashable N} {L : Type} `{Hashable L}.

Lemma NoDup_keys_nodesets (d : dict N L) : NoDup (keys (nodesets_per_label d)).
Proof.
  unfold nodesets_per_label.
  apply (fold_left_invariant (fun acc : dict L (list N) => NoDup (keys acc))).
  - constructor.
  - intros acc nl Hacc. apply NoDup_keys_setitem. exact Hacc.
Qed.

Lemma NoDup_nodesets (d : dict N L) (l : L) (s : list N) :
  In (l, s) (nodesets_per_label d) -> NoDup s.
Proof.
  unfold nodesets_per_label. revert l s.
  apply (fold_left_invariant
           (fun acc : dict L (list N) =>
              (forall l s, In (l, s) acc -> NoDup s))).
  - intros l s [].
  - intros acc [n l0] Hacc l s Hin. unfold nodesets_step in Hin. simpl in Hin.
    apply In_setitem in Hin. destruct Hin as [E | Hin].
    + injection E as -> ->. apply NoDup_set_add. unfold get_default.
      destruct (get l0 acc) as [s0 |] eqn:E0; [| constructor].
      exact (Hacc l0 s0 (get_In l0 s0 acc E0)).
    + exact (Hacc l s Hin).
Qed.

Lemma nodeset_members (d : dict N L) (l : L) (s : list N) :
  In (l, s) (nodesets_per_label d) -> forall n, In n s <-> In (n, l) d.
Proof.
  intros Hin n. rewrite <- nodesets_member. unfold get_default.
  rewrite (In_get l s _ (NoDup_keys_nodesets d) Hin). reflexivity.
Qed.

Lemma In_rename_labels (f : L -> L) (d : dict N L) (n : N) (x : L) :
  In (n, x) (Spec.rename_labels f d) <-> exists l, x = f l /\ In (n, l) d.
Proof.
  unfold Spec.rename_labels. rewrite in_map_iff. split.
  - intros [[n' l] [E Hin]]. simpl in E. injection E as -> <-.
    exists l. split; [reflexivity | exact Hin].
  - intros [l [-> Hin]]. exists (n, l). split; [reflexivity | exact Hin].
Qed.

Lemma keys_rename_labels (f : L -> L) (d : dict N L) :
  keys (Spec.rename_labels f d) = keys d.
Proof.
  unfold keys, Spec.rename_labels. rewrite map_map. reflexivity.
Qed.

Lemma py_eqb_iff (a b c d : L) : (a = b <-> c = d) -> py_eqb a b = py_eqb c d.
Proof.
  intro Hiff. destruct (py_eqb c d) eqn:E.
  - apply py_eqb_eq. apply Hiff. apply py_eqb_eq. exact E.
  - apply py_eqb_false. intro Hab. apply py_eqb_false in E. apply E.
    apply Hiff. exact Hab.
Qed.

End NodesetFacts.

Section PerfectOverlap.
Context {N : Type} `{Hashable N} {L : Type} `{Hashable L}.
Variable label_dict : dict N L.
Variable f : L -> L.
Hypothesis Hnd : NoDup (keys label_dict).
Hypothesis Hinj :
  forall l l', In l (map snd label_dict) -> In l' (map snd label_dict) ->
    f l = f l' -> l = l'.
Hypothesis Hsame :
  forall l l', In l (map snd label_dict) -> In l' (map snd label_dict) ->
    f l = l' -> l = l'.

Lemma overlap_of_renamed (t t1 : L * list N) (j : Q) :
  In t (nodesets_per_label label_dict) ->
  In t1 (nodesets_per_label (Spec.rename_labels f label_dict)) ->
  jaccard_overlap (snd t1) (snd t) = Ok j ->
  In (fst t) (map snd label_dict)
  /\ exists l', In l' (map snd label_dict) /\ fst t1 = f l'
                /\ j = if py_eqb l' (fst t) then 1 else 0.
Proof.
  destruct t as [l s], t1 as [x s1]. simpl. intros Ht Ht1 Hj.
  assert (Hl : In l (map snd label_dict)).
  { apply label_in_values, nodesets_keys. exact (In_keys l s _ Ht). }
  split; [exact Hl |].
  assert (Hx := In_keys x s1 _ Ht1). apply nodesets_keys in Hx.
  destruct Hx as [n0 Hx]. apply In_rename_labels in Hx.
  destruct Hx as [l' [-> Hn0]].
  assert (Hl' : In l' (map snd label_dict)).
  { apply label_in_values. exists n0. exact Hn0. }
  exists l'. split; [exact Hl' |]. split; [reflexivity |].
  assert (Hs1 : forall n, In n s1 <-> In (n, l') label_dict).
  { intro n. rewrite (nodeset_members _ (f l') s1 Ht1 n), In_rename_labels. split.
    - intros [l'' [E Hin]].
      assert (Hl'' : In l'' (map snd label_dict)).
      { apply label_in_values. exists n. exact Hin. }
      rewrite (Hinj l' l'' Hl' Hl'' E). exact Hin.
    - intro Hin. exists l'. split; [reflexivity | exact Hin]. }
  assert (Hs : forall n, In n s <-> In (n, l) label_dict).
  { exact (nodeset_members label_dict l s Ht). }
  assert (Hne : s <> []) by exact (nodesets_nonempty label_dict l s Ht).
  destruct (py_eqb l' l) eqn:E.
  - apply py_eqb_eq in E. subst l'.
    rewrite (jaccard_overlap_same s1 s) in Hj.
    + apply Ok_inj in Hj. symmetry. exact Hj.
    + exact (NoDup_nodesets _ (f l) s1 Ht1).
    + exact (NoDup_nodesets _ l s Ht).
    + exact Hne.
    + intro n. rewrite Hs1, Hs. reflexivity.
  - apply py_eqb_false in E.
    rewrite (jaccard_overlap_disjoint s1 s) in Hj.
    + apply Ok_inj in Hj. symmetry. exact Hj.
    + exact Hne.
    + intros n Hn1 Hn. apply Hs1 in Hn1. apply Hs in Hn.
      exact (E (one_label_per_node label_dict n l' l Hnd Hn1 Hn)).
Qed.

Lemma renamed_overlap_graph_choices (g : Graph L) (l : L) :
  build_overlap_graph (nodesets_per_label label_dict)
    (nodesets_per_label (Spec.rename_labels f label_dict)) = Ok g ->
  In l (map snd label_dict) ->
  maxwt_nbr g l = Some (f l) /\ maxwt_nbr g (f l) = Some l.
Proof.
  intros Hg Hl.
  destruct (build_overlap_graph_entries _ _ g Hg) as [Hentries Hlisted].
  assert (Hl_t : exists s, In (l, s) (nodesets_per_label label_dict)).
  { apply label_in_values, nodesets_keys in Hl.
    destruct (keys_get l _ Hl) as [s Hs]. exists s. exact (get_In l s _ Hs). }
  destruct Hl_t as [s Hs].
  assert (Hl_t1 : exists s1,
             In (f l, s1) (nodesets_per_label (Spec.rename_labels f label_dict))).
  { assert (Hk : In (f l) (keys (nodesets_per_label
                                   (Spec.rename_labels f label_dict)))).
    { apply nodesets_keys. apply label_in_values in Hl. destruct Hl as [n Hn].
      exists n. apply In_rename_labels. exists l. split; [reflexivity | exact Hn]. }
    destruct (keys_get (f l) _ Hk) as [s1 Hs1]. exists s1.
    exact (get_In (f l) s1 _ Hs1). }
  destruct Hl_t1 as [s1 Hs1].
  destruct (Hlisted (l, s) (f l, s1) Hs Hs1) as [[rowf [Hrowf Hinf]] [row [Hrow Hin]]].
  simpl in *. split.
  - apply (maxwt_nbr_of_indicator g l (f l) row Hrow Hin).
    intros m d Hmd.
    destruct (Hentries l row m d Hrow Hmd)
      as [t1 [t [j [Ht1 [Ht [Hj [-> Hends]]]]]]].
    destruct (overlap_of_renamed t t1 j Ht Ht1 Hj) as [Hlt [l' [Hl' [Hf ->]]]].
    f_equal. destruct Hends as [[E1 E2] | [E1 E2]].
    + rewrite Hf in E1. symmetry in E1.
      assert (l' = l) by exact (Hsame l' l Hl' Hl E1). subst l'.
      rewrite E1, E2. rewrite (py_eqb_iff l (fst t) (fst t) l); [reflexivity |].
      split; congruence.
    + rewrite <- E1, E2, Hf.
      rewrite (py_eqb_iff l' l (f l') (f l)); [reflexivity |].
      split; [congruence | exact (Hinj l' l Hl' Hl)].
  - apply (maxwt_nbr_of_indicator g (f l) l rowf Hrowf Hinf).
    intros m d Hmd.
    destruct (Hentries (f l) rowf m d Hrowf Hmd)
      as [t1 [t [j [Ht1 [Ht [Hj [-> Hends]]]]]]].
    destruct (overlap_of_renamed t t1 j Ht Ht1 Hj) as [Hlt [l' [Hl' [Hf ->]]]].
    f_equal. destruct Hends as [[E1 E2] | [E1 E2]].
    + rewrite Hf in E1.
      assert (l = l') by exact (Hinj l l' Hl Hl' E1). subst l'.
      rewrite E2. rewrite (py_eqb_iff l (fst t) (fst t) l); [reflexivity |].
      split; congruence.
    + rewrite <- E1 in Hlt.
      assert (Efl : l = f l) by exact (Hsame l (f l) Hl Hlt eq_refl).
      rewrite E2, Hf, <- E1.
      rewrite (py_eqb_iff l' (f l) (f l') l); [reflexivity |].
      split.
      * intro E. rewrite E. congruence.
      * intro E. rewrite <- Efl. exact (Hsame l' l Hl' Hl E).
Qed.

End PerfectOverlap.

Section Relabelling.
Context {N : Type} `{Hashable N} {L : Type} `{Hashable L}.

Lemma option_ext {A : Type} (a b : option A) :
  (forall x, a = Some x <-> b = Some x) -> a = b.
Proof.
  intro Hext. destruct a as [x |].
  - symmetry. apply Hext. reflexivity.
  - destruct b as [y |]; [| reflexivity]. apply Hext. reflexivity.
Qed.

(** The previous snapshot has the groups of the current one, the group of
    label [l] under the label [f l]: every vertex of the overlap graph has
    its counterpart as the neighbour of largest weight, every match is
    reciprocal, and a node of label [l] receives [f l]. *)
Lemma match_labels_of_relabelling (label_dict : dict N L) (f : L -> L) :
  NoDup (keys label_dict) ->
  (forall l l', In l (map snd label_dict) -> In l' (map snd label_dict) ->
     f l = f l' -> l = l') ->
  (forall l l', In l (map snd label_dict) -> In l' (map snd label_dict) ->
     f l = l' -> l = l') ->
  exists matched_label_dict,
    match_labels label_dict (Spec.rename_labels f label_dict)
    = Ok matched_label_dict
    /\ forall n x, get n matched_label_dict = Some x
                   <-> exists l, In (n, l) label_dict /\ x = f l.
Proof.
  intros Hnd Hinj Hsame.
  destruct label_dict as [| p rest].
  { exists []. split; [reflexivity |]. intros n x. split; [discriminate |].
    intros [l [[] _]]. }
  set (label_dict := p :: rest) in *.
  set (prev_label_dict := Spec.rename_labels f label_dict).
  assert (Hprev : exists q r, prev_label_dict = q :: r).
  { unfold prev_label_dict, label_dict. simpl. eauto. }
  assert (Hprev_ne : prev_label_dict <> []).
  { destruct Hprev as [q [r ->]]. discriminate. }
  destruct (build_overlap_graph_ok (nodesets_per_label label_dict)
              (nodesets_per_label prev_label_dict)
              (nodesets_nonempty label_dict)
              (nodesets_not_nil prev_label_dict Hprev_ne))
    as [g [Hg [Hdense [Hts Hvertices]]]].
  destruct (build_max_overlap_digraph_ok g Hdense) as [D [HD [Hheads Hall]]].
  assert (Hchoice := build_max_overlap_digraph_heads g D HD).
  assert (Hbest : forall l, In l (map snd label_dict) ->
                    best_matched_label D l = Ok (f l)).
  { intros l Hl.
    destruct (renamed_overlap_graph_choices label_dict f Hnd Hinj Hsame g l Hg Hl)
      as [Hfwd Hback].
    assert (Hl_node : In l (nodes g)).
    { apply get_keys, Hts, nodesets_keys, label_in_values. exact Hl. }
    destruct (Hall l Hl_node) as [h [t Hsucc]].
    assert (h = f l).
    { assert (E := Hchoice l h t Hsucc). congruence. }
    subst h.
    assert (Hfl_node : In (f l) (nodes g)).
    { apply get_keys. exact (Hheads l (f l) t Hsucc). }
    destruct (Hall (f l) Hfl_node) as [h' [t' Hsucc']].
    assert (h' = l).
    { assert (E := Hchoice (f l) h' t' Hsucc'). congruence. }
    subst h'.
    unfold best_matched_label, successors.
    rewrite Hsucc. cbn [bind first]. rewrite Hsucc'. cbn [bind first].
    rewrite py_eqb_refl. reflexivity. }
  assert (Hbest' : forall l, In l (keys (nodesets_per_label label_dict)) ->
                     exists x, best_matched_label D l = Ok x).
  { intros l Hl. exists (f l). apply Hbest.
    apply label_in_values, nodesets_keys. exact Hl. }
  destruct (matched_loop label_dict D Hnd Hbest') as [out [Hrun [Hkeys Hout]]].
  exists out. split.
  { unfold match_labels. destruct Hprev as [q [r Hqr]]. rewrite Hqr.
    cbv zeta. rewrite <- Hqr. rewrite Hg. cbn [bind]. rewrite HD. cbn [bind].
    exact Hrun. }
  intros n x. rewrite Hout. split.
  - intros [l [Hl Hx]].
    rewrite (Hbest l (proj1 (label_in_values label_dict l) (ex_intro _ n Hl))) in Hx.
    apply Ok_inj in Hx. exists l. split; [exact Hl | symmetry; exact Hx].
  - intros [l [Hl ->]]. exists l. split; [exact Hl |].
    apply Hbest. apply label_in_values. exists n. exact Hl.
Qed.

Lemma get_rename_labels_iff (label_dict : dict N L) (f : L -> L) (n : N) (x : L) :
  NoDup (keys label_dict) ->
  (get n (Spec.rename_labels f label_dict) = Some x
   <-> exists l, In (n, l) label_dict /\ x = f l).
Proof.
  intro Hnd. split.
  - intro Hx. apply get_In, In_rename_labels in Hx. destruct Hx as [l [-> Hl]].
    exists l. split; [exact Hl | reflexivity].
  - intros [l [Hl ->]]. apply In_get.
    + rewrite keys_rename_labels. exact Hnd.
    + apply In_rename_labels. exists l. split; [reflexivity | exact Hl].
Qed.

Lemma rename_labels_id (label_dict : dict N L) :
  Spec.rename_labels (fun l => l) label_dict = label_dict.
Proof.
  unfold Spec.rename_labels. induction label_dict as [| [n l] d IH]; simpl.
  - reflexivity.
  - rewrite IH. reflexivity.
Qed.

(** X15: when the previous snapshot has the same groups as the current
    one under other names (the previous label of a group is [f] of its
    current label, different groups have different previous labels, and a
    label used in both snapshots names the same group in both), every node
    receives its previous label: the mapping returned agrees with
    [prev_label_dict] on every node. *)
Theorem match_labels_recovers_relabelling (label_dict : dict N L) (f : L -> L) :
  NoDup (keys label_dict) ->
  (forall l l', In l (map snd label_dict) -> In l' (map snd label_dict) ->
     f l = f l' -> l = l') ->
  (forall l l', In l (map snd label_dict) -> In l' (map snd label_dict) ->
     f l = l' -> l = l') ->
  exists matched_label_dict,
    match_labels label_dict (Spec.rename_labels f label_dict)
    = Ok matched_label_dict
    /\ forall n, get n matched_label_dict
                 = get n (Spec.rename_labels f label_dict).
Proof.
  intros Hnd Hinj Hsame.
  destruct (match_labels_of_relabelling label_dict f Hnd Hinj Hsame)
    as [m [Hm Hget]].
  exists m. split; [exact Hm |].
  intro n. apply option_ext. intro x.
  rewrite Hget, (get_rename_labels_iff label_dict f n x Hnd). reflexivity.
Qed.

(** X17: matching a snapshot against itself changes no label: the mapping
    returned has for every node the label that [label_dict] gives it (the
    order of its items can differ, the nodes of a group being written
    together). *)
Theorem match_labels_same_snapshot (label_dict : dict N L) :
  NoDup (keys label_dict) ->
  exists matched_label_dict,
    match_labels label_dict label_dict = Ok matched_label_dict
    /\ forall n, get n matched_label_dict = get n label_dict.
Proof.
  intro Hnd.
  destruct (match_labels_of_relabelling label_dict (fun l => l) Hnd)
    as [m [Hm Hget]].
  - intros l l' _ _ E. exact E.
  - intros l l' _ _ E. exact E.
  - rewrite rename_labels_id in Hm. exists m. split; [exact Hm |].
    intro n. apply option_ext. intro x. rewrite Hget. split.
    + intros [l [Hl ->]]. exact (In_get n l label_dict Hnd Hl).
    + intro Hx. exists x. split; [exact (get_In n x label_dict Hx) | reflexivity].
Qed.


End Relabelling.

Lemma match_labels_same_snapshot_witness :
  exists matched_label_dict,
    match_labels Samples.labels_t Samples.labels_t = Ok matched_label_dict
    /\ forall n, get n matched_label_dict = get n Samples.labels_t.
Proof.
  apply (match_labels_same_snapshot Samples.labels_t).
  repeat constructor; simpl; intuition discriminate.
Defined.

Lemma match_labels_recovers_relabelling_witness :
  exists matched_label_dict,
    match_labels Samples.labels_t
      (Spec.rename_labels Samples.b_as_c Samples.labels_t)
    = Ok matched_label_dict
    /\ forall n, get n matched_label_dict
                 = get n (Spec.rename_labels Samples.b_as_c Samples.labels_t).
Proof.
  apply (match_labels_recovers_relabelling Samples.labels_t Samples.b_as_c).
  - repeat constructor; simpl; intuition discriminate.
  - intros l l' Hl Hl' E.
    each_member Hl; each_member Hl'; vm_compute in E;
      first [reflexivity | discriminate E].
  - intros l l' Hl Hl' E. subst l'.
    each_member Hl; each_member Hl'; first [reflexivity | discriminate Hl'].
Defined.
